(** * viajera-digital: the YouTube-to-transcript pipeline

    A shallow embedding of [lib/youtube-audio-extractor.ts], of
    [lib/groq-client.ts] and of the POST handlers of
    [app/api/process-youtube-decimas/route.ts] and
    [app/api/transcribe-audio/route.ts], with the properties the
    specification states about them and further properties of the code.

    Conventions.
    - A JavaScript string is the list of its UTF-16 code units, each an
      integer ([Z]).  [str] turns an ASCII literal into such a list.
    - A regular expression is a term of [regex]; [rmatch] is the
      backtracking matcher of ECMAScript, written with continuations as in
      the language definition (greedy quantifiers, ordered alternatives).
    - Effectful code runs in the monad [M]: it reads and updates a [State]
      (files on disk, the pending-cleanup registry, the children still
      running), may throw, and emits a chronological list of [Event]s.
      What the outside world answers is read from an [Env]. *)

From Stdlib Require Import ZArith List Bool Lia Ascii String DecimalString.
From Stdlib Require QArith.
From stdpp Require Import base tactics option list gmap sets.

Local Open Scope Z_scope.

(** ** JavaScript strings *)

Abbreviation jsstring := (list Z).

Fixpoint str (s : string) : jsstring :=
  match s with
  | EmptyString => []
  | String a s' => Z.of_N (N_of_ascii a) :: str s'
  end.

(** [s.startsWith(p)], returning what follows the prefix. *)
Fixpoint strip_prefix (p s : jsstring) : option jsstring :=
  match p, s with
  | [], _ => Some s
  | a :: p', b :: s' => if a =? b then strip_prefix p' s' else None
  | _ :: _, [] => None
  end.

(** [s.includes(p)]. *)
Fixpoint includes (s p : jsstring) : bool :=
  match strip_prefix p s with
  | Some _ => true
  | None => match s with [] => false | _ :: s' => includes s' p end
  end.

(** [s.replace(/c/g, r)] for a one-character pattern. *)
Fixpoint replace_all (c : Z) (r s : jsstring) : jsstring :=
  match s with
  | [] => []
  | a :: s' => (if a =? c then r else [a]) ++ replace_all c r s'
  end.

(** [x || d] on strings: the empty string is falsy. *)
Definition or_default (x d : jsstring) : jsstring :=
  match x with [] => d | _ => x end.

(** An integer inside a template literal: its decimal digits. *)
Definition decimal (n : Z) : jsstring :=
  match n with
  | 0 => str "0"
  | Zpos p => str (NilEmpty.string_of_uint (Pos.to_uint p))
  | Zneg p => str "-" ++ str (NilEmpty.string_of_uint (Pos.to_uint p))
  end.

(** ** Regular expressions *)

Inductive regex : Type :=
| RBol                              (* ^ *)
| REol                              (* $ *)
| RLit (l : jsstring)               (* a run of literal characters *)
| RSet (p : Z -> bool)              (* one character of a class *)
| RStarSet (p : Z -> bool)          (* class*, greedy *)
| RSeq (r1 r2 : regex)
| RAlt (r1 r2 : regex)              (* r1|r2 *)
| ROpt (r : regex)                  (* r?, greedy *)
| RGroup (i : nat) (r : regex).     (* the i-th capturing group *)

(** r{n} *)
Fixpoint rrep (n : nat) (r : regex) : regex :=
  match n with
  | O => RLit []
  | S n' => RSeq r (rrep n' r)
  end.

(** The array a match returns: index 0 is the whole match, index i the i-th
    group; a group that took no part is absent (undefined). *)
Abbreviation captures := (gmap nat jsstring).

(** The characters of [s] consumed when [s'] is what remains. *)
Definition consumed (s s' : jsstring) : jsstring :=
  take (length s - length s') s.

Section Matcher.
Context {R : Type}.

Fixpoint star_set (p : Z -> bool) (s : jsstring)
    (k : jsstring -> option R) : option R :=
  match s with
  | c :: s' =>
      if p c then
        match star_set p s' k with
        | Some x => Some x
        | None => k s
        end
      else k s
  | [] => k []
  end.

(** [rmatch r whole s caps k]: match [r] at the suffix [s] of the input
    [whole], then continue with [k]; [None] is failure, which makes the
    caller try its next choice. *)
Fixpoint rmatch (r : regex) (whole s : jsstring) (caps : captures)
    (k : jsstring -> captures -> option R) : option R :=
  match r with
  | RBol => if (length s =? length whole)%nat then k s caps else None
  | REol => match s with [] => k [] caps | _ :: _ => None end
  | RLit l =>
      match strip_prefix l s with
      | Some s' => k s' caps
      | None => None
      end
  | RSet p =>
      match s with
      | c :: s' => if p c then k s' caps else None
      | [] => None
      end
  | RStarSet p => star_set p s (fun s' => k s' caps)
  | RSeq r1 r2 =>
      rmatch r1 whole s caps (fun s' caps' => rmatch r2 whole s' caps' k)
  | RAlt r1 r2 =>
      match rmatch r1 whole s caps k with
      | Some x => Some x
      | None => rmatch r2 whole s caps k
      end
  | ROpt r1 =>
      match rmatch r1 whole s caps k with
      | Some x => Some x
      | None => k s caps
      end
  | RGroup i r1 =>
      rmatch r1 whole s caps
        (fun s' caps' => k s' (<[i := consumed s s']> caps'))
  end.
End Matcher.

(** One attempt at the position where [s] starts. *)
Definition match_here (r : regex) (whole s : jsstring) : option captures :=
  rmatch r whole s ∅ (fun s' caps => Some (<[O := consumed s s']> caps)).

(** [RegExp.prototype.exec] without the g and y flags: the leftmost
    position at which the pattern matches, the end of the input included. *)
Fixpoint search (r : regex) (whole s : jsstring) : option captures :=
  match match_here r whole s with
  | Some caps => Some caps
  | None =>
      match s with
      | [] => None
      | _ :: s' => search r whole s'
      end
  end.

Definition regex_exec (r : regex) (s : jsstring) : option captures :=
  search r s s.

(** [re.test(s)] *)
Definition regex_test (r : regex) (s : jsstring) : bool :=
  match regex_exec r s with Some _ => true | None => false end.

(** Character classes. *)
Definition in_range (lo hi c : Z) : bool := (lo <=? c) && (c <=? hi).

(** [[a-zA-Z0-9_-]] *)
Definition id_char (c : Z) : bool :=
  in_range 97 122 c || in_range 65 90 c || in_range 48 57 c
  || (c =? 95) || (c =? 45).

(** [[&?]] *)
Definition amp_or_question (c : Z) : bool := (c =? 38) || (c =? 63).

(** [[?&]] *)
Definition question_or_amp (c : Z) : bool := (c =? 63) || (c =? 38).

(** [.] without the s flag: anything but a line terminator
    (LF, CR, U+2028, U+2029). *)
Definition dot (c : Z) : bool :=
  negb ((c =? 10) || (c =? 13) || (c =? 8232) || (c =? 8233)).

(** ** youtube-audio-extractor.ts: the URL grammar *)

(** The source pattern, group by group (spaces added for reading):
    ^ (https?:\/\/)? (www\.)? (youtube\.com\/watch\?v=|youtu\.be\/)
      ([a-zA-Z0-9_-]{11}) ([&?] .* )? $ *)
Definition YOUTUBE_URL_REGEX : regex :=
  RSeq RBol
  (RSeq (ROpt (RGroup 1 (RSeq (RLit (str "http"))
                        (RSeq (ROpt (RLit (str "s"))) (RLit (str "://"))))))
  (RSeq (ROpt (RGroup 2 (RLit (str "www."))))
  (RSeq (RGroup 3 (RAlt (RLit (str "youtube.com/watch?v="))
                        (RLit (str "youtu.be/"))))
  (RSeq (RGroup 4 (rrep 11 (RSet id_char)))
  (RSeq (ROpt (RGroup 5 (RSeq (RSet amp_or_question) (RStarSet dot))))
        REol))))).

Definition extractYouTubeVideoId (url : jsstring) : option jsstring :=
  match regex_exec YOUTUBE_URL_REGEX url with
  | Some m => m !! 4%nat
  | None => None
  end.

Definition isValidYouTubeUrl (url : jsstring) : bool :=
  regex_test YOUTUBE_URL_REGEX url.

(** route.ts, the pattern of the handler's own identifier extraction:
    [?&]v=([a-zA-Z0-9_-]{11}) | youtu\.be\/([a-zA-Z0-9_-]{11})
    It has no anchors: it is searched for anywhere in the URL. *)
Definition VIDEO_ID_REGEX : regex :=
  RAlt (RSeq (RSet question_or_amp)
       (RSeq (RLit (str "v=")) (RGroup 1 (rrep 11 (RSet id_char)))))
       (RSeq (RLit (str "youtu.be/")) (RGroup 2 (rrep 11 (RSet id_char)))).

(** [x || y] on two capture slots: undefined and the empty string are
    falsy. *)
Definition or_else (x y : option jsstring) : option jsstring :=
  match x with
  | Some (_ :: _) => x
  | _ => y
  end.

(** [videoIdMatch ? videoIdMatch[1] || videoIdMatch[2] : null] *)
Definition inlineVideoId (url : jsstring) : option jsstring :=
  match regex_exec VIDEO_ID_REGEX url with
  | Some m => or_else (m !! 1%nat) (m !! 2%nat)
  | None => None
  end.

(** ** youtube-audio-extractor.ts: configuration and the command line *)

Inductive AudioFormat := mp3 | wav | webm | m4a.
Inductive AudioQuality := lowest | low | medium.

Record ExtractorConfig := {
  timeoutMs : Z;
  audioFormat : AudioFormat;
  audioQuality : AudioQuality;
}.

(** What a caller may pass to the constructor: every field is optional. *)
Record ExtractorOptions := {
  opt_timeoutMs : option Z;
  opt_audioFormat : option AudioFormat;
  opt_audioQuality : option AudioQuality;
}.

(** The constructor: [config.timeoutMs || 300000] and so on; 0 is falsy. *)
Definition makeConfig (o : ExtractorOptions) : ExtractorConfig :=
  {| timeoutMs :=
       match opt_timeoutMs o with
       | Some t => if t =? 0 then 300000 else t
       | None => 300000
       end;
     audioFormat := default mp3 (opt_audioFormat o);
     audioQuality := default lowest (opt_audioQuality o) |}.

Definition noOptions : ExtractorOptions :=
  {| opt_timeoutMs := None; opt_audioFormat := None;
     opt_audioQuality := None |}.

Definition formatName (f : AudioFormat) : jsstring :=
  match f with
  | mp3 => str "mp3" | wav => str "wav"
  | webm => str "webm" | m4a => str "m4a"
  end.

Definition formatMap (f : AudioFormat) : jsstring :=
  match f with
  | mp3 => str "bestaudio[ext=mp3]/best"
  | webm => str "bestaudio[ext=webm]/best"
  | m4a => str "bestaudio[ext=m4a]/best"
  | wav => str "bestaudio[ext=wav]/best"
  end.

(** [parts.join(sep)] *)
Fixpoint join_with (sep : jsstring) (parts : list jsstring) : jsstring :=
  match parts with
  | [] => []
  | [x] => x
  | x :: rest => x ++ sep ++ join_with sep rest
  end.

Definition quote : Z := 39.      (* the single quote *)
Definition backslash : Z := 92.

(** The replacement text of the escape: quote, backslash, quote, quote. *)
Definition escaped_quote : jsstring := [quote; backslash; quote; quote].

(** Only [outputPath] goes through the replacement; [youtubeUrl] is put
    between quotes as it is. *)
Definition buildYtdlpCommand (cfg : ExtractorConfig)
    (youtubeUrl outputPath : jsstring) : jsstring :=
  let format := formatMap (audioFormat cfg) in
  let output := replace_all quote escaped_quote outputPath in
  join_with (str " ")
    [ str "yt-dlp";
      str "-x";
      str "--audio-format"; formatName (audioFormat cfg);
      str "--audio-quality";
        match audioQuality cfg with lowest => str "128" | _ => str "192" end;
      str "-f"; format;
      str "--quiet";
      str "--no-warnings";
      str "-o"; [quote] ++ output ++ [quote];
      [quote] ++ youtubeUrl ++ [quote] ].

(** ** How sh reads a command line

    [child_process.exec] hands the command string to [/bin/sh -c].  The
    lexer below is the token recognition of the POSIX shell restricted to
    what the command lines of this program can contain: blanks separate
    words, a single quote opens a literal run up to the next single quote,
    an unquoted backslash makes the next character literal.  No expansion
    is performed; an unquoted character that would begin an operator, an
    expansion or another quoting form is reported as [Active], and a quote
    left open as [Unterminated]. *)

Inductive token :=
| Word (w : jsstring)
| Active (c : Z)
| Unterminated.

Inductive lexmode := Unquoted | Quoted | Escaped.

Definition is_blank (c : Z) : bool := (c =? 32) || (c =? 9).

(** newline, double quote, dollar, ampersand, parentheses, semicolon,
    angle brackets, backquote, bar *)
Definition is_active (c : Z) : bool :=
  (c =? 10) || (c =? 34) || (c =? 36) || (c =? 38) || (c =? 40) || (c =? 41)
  || (c =? 59) || (c =? 60) || (c =? 62) || (c =? 96) || (c =? 124).

Definition flush (cur : option jsstring) : list token :=
  match cur with Some w => [Word w] | None => [] end.

Definition push (cur : option jsstring) (c : Z) : option jsstring :=
  Some (default [] cur ++ [c]).

Fixpoint sh_lex (mode : lexmode) (cur : option jsstring) (s : jsstring)
    : list token :=
  match s with
  | [] =>
      match mode with
      | Unquoted => flush cur
      | _ => flush cur ++ [Unterminated]
      end
  | c :: s' =>
      match mode with
      | Quoted =>
          if c =? quote then sh_lex Unquoted cur s'
          else sh_lex Quoted (push cur c) s'
      | Escaped =>
          if c =? 10 then sh_lex Unquoted cur s'
          else sh_lex Unquoted (push cur c) s'
      | Unquoted =>
          if c =? quote then sh_lex Quoted (Some (default [] cur)) s'
          else if c =? backslash then
            sh_lex Escaped (Some (default [] cur)) s'
          else if is_blank c then flush cur ++ sh_lex Unquoted None s'
          else if is_active c then
            flush cur ++ Active c :: sh_lex Unquoted None s'
          else sh_lex Unquoted (push cur c) s'
      end
  end.

Definition shell_tokens (command : jsstring) : list token :=
  sh_lex Unquoted None command.

(** The words sh is meant to see for a given configuration, URL and path. *)
Definition intended_tokens (cfg : ExtractorConfig)
    (youtubeUrl outputPath : jsstring) : list token :=
  [ Word (str "yt-dlp"); Word (str "-x");
    Word (str "--audio-format"); Word (formatName (audioFormat cfg));
    Word (str "--audio-quality");
    Word (match audioQuality cfg with lowest => str "128" | _ => str "192" end);
    Word (str "-f"); Word (formatMap (audioFormat cfg));
    Word (str "--quiet"); Word (str "--no-warnings");
    Word (str "-o"); Word outputPath; Word youtubeUrl ].

(** ** The world the code runs in *)

Inductive ConsoleLevel := LogLevel | WarnLevel | ErrorLevel.

(** What the code does to the outside, in the order it does it.
    [EvExtractAudio] and [EvCleanupFile] mark the entry into the two public
    methods of the extractor; the others are calls into Node, the Redis
    client and the HTTP client.  [Date.now] is left out, and with it the
    [duration] field of results and responses. *)
Inductive Event :=
| EvConsole (level : ConsoleLevel) (msg : jsstring)
| EvExtractAudio (url : jsstring)
| EvCleanupFile (path : jsstring)
| EvTmpdir
| EvRandomBytes (n : Z)
| EvSetTimeout (ms : Z)
| EvClearTimeout
| EvExec (command : jsstring)
| EvExistsSync (path : jsstring)
| EvUnlink (path : jsstring)
| EvReadFile (path : jsstring)
| EvFetch (url filename : jsstring)
| EvRateLimit (identity : jsstring)
| EvRedisGet (key : jsstring)
| EvRedisSetex (key : jsstring) (ttl : Z) (value : jsstring).

(** [disk]: the paths that exist.  [tempFilesToCleanup]: the private set of
    the extractor.  [children]: the command lines of the child processes
    that were spawned and have not exited. *)
Record State := {
  disk : gset jsstring;
  tempFilesToCleanup : gset jsstring;
  children : list jsstring;
}.

(** A call returns a value or throws; an error is kept as its [message]. *)
Inductive outcome (A : Type) : Type :=
| Returned (a : A)
| Thrown (message : jsstring).
Arguments Returned {A} a.
Arguments Thrown {A} message.

Definition M (A : Type) : Type := State -> outcome A * State * list Event.

Definition ret {A} (a : A) : M A := fun st => (Returned a, st, []).

Definition throw {A} (message : jsstring) : M A :=
  fun st => (Thrown message, st, []).

Definition bind {A B} (m : M A) (f : A -> M B) : M B :=
  fun st =>
    match m st with
    | (Returned a, st1, t1) =>
        let '(r, st2, t2) := f a st1 in (r, st2, t1 ++ t2)
    | (Thrown e, st1, t1) => (Thrown e, st1, t1)
    end.

(** [try { m } catch (error) { h error }]: what [m] did before it threw
    stays done. *)
Definition try_catch {A} (m : M A) (h : jsstring -> M A) : M A :=
  fun st =>
    match m st with
    | (Returned a, st1, t1) => (Returned a, st1, t1)
    | (Thrown e, st1, t1) =>
        let '(r, st2, t2) := h e st1 in (r, st2, t1 ++ t2)
    end.

Notation "'let!' x ':=' m 'in' k" := (bind m (fun x => k))
  (at level 10, x name, m at level 100, k at level 200).

Definition emit (e : Event) : M unit := fun st => (Returned tt, st, [e]).

Definition lift {A} (o : outcome A) : M A := fun st => (o, st, []).

Definition console (level : ConsoleLevel) (msg : jsstring) : M unit :=
  emit (EvConsole level msg).

(** One run of the external command, as the outside world decides it.
    [run_time]: milliseconds from spawn to exit, [None] when the child
    never exits on its own.  [run_tie_to_timer]: which callback Node runs
    first when the exit and the timer fall on the same millisecond.
    [run_files]: the files the child has written by the time it exits. *)
Record ExecRun := {
  run_time : option Z;
  run_tie_to_timer : bool;
  run_exit : Z;
  run_stdout : jsstring;
  run_stderr : jsstring;
  run_files : gset jsstring;
}.

Record RateLimitAnswer := {
  rl_success : bool;
  rl_remaining : Z;
  rl_reset : Z;
}.

Record TranscriptionResult := {
  tr_success : bool;
  tr_text : option jsstring;
  tr_error : option jsstring;
  tr_code : option jsstring;
}.

Record Env := {
  env_tmpdir : jsstring;
  env_randomBytes : list Z;
  env_exec : jsstring -> ExecRun;
  (* unlink(path) rejects with this message *)
  env_unlink_error : jsstring -> option jsstring;
  env_ratelimit : jsstring -> outcome RateLimitAnswer;
  env_redis_get : jsstring -> outcome (option jsstring);
  env_redis_setex : jsstring -> Z -> jsstring -> outcome unit;
  (* process.env.NEXT_PUBLIC_APP_URL *)
  env_app_url : option jsstring;
  (* fetch(url, form with the file) and then response.json() *)
  env_fetch : jsstring -> jsstring -> outcome TranscriptionResult;
}.

(** ** youtube-audio-extractor.ts: the extractor *)

Record ExtractionResult := {
  success : bool;
  audioPath : option jsstring;
  filename : option jsstring;
  error : option jsstring;
  videoId : option jsstring;
}.

Definition hex_digit (d : Z) : Z := if d <? 10 then 48 + d else 87 + d.

(** [buffer.toString('hex')] *)
Definition to_hex (bytes : list Z) : jsstring :=
  flat_map (fun b => [hex_digit (b / 16); hex_digit (b mod 16)]) bytes.

Definition tmpdir (env : Env) : M jsstring :=
  let! _ := emit EvTmpdir in ret (env_tmpdir env).

Definition randomBytes (env : Env) (n : Z) : M (list Z) :=
  let! _ := emit (EvRandomBytes n) in ret (env_randomBytes env).

(** [path.join(dir, name)], for a directory without a trailing slash. *)
Definition join (dir name : jsstring) : jsstring := dir ++ str "/" ++ name.

Definition existsSync (path : jsstring) : M bool :=
  fun st => (Returned (bool_decide (path ∈ disk st)), st, [EvExistsSync path]).

Definition unlink (env : Env) (path : jsstring) : M unit :=
  fun st =>
    match env_unlink_error env path with
    | Some message => (Thrown message, st, [EvUnlink path])
    | None =>
        (Returned tt,
         {| disk := disk st ∖ {[path]};
            tempFilesToCleanup := tempFilesToCleanup st;
            children := children st |},
         [EvUnlink path])
    end.

(** [this.tempFilesToCleanup.add(path)] *)
Definition registry_add (path : jsstring) : M unit :=
  fun st =>
    (Returned tt,
     {| disk := disk st;
        tempFilesToCleanup := {[path]} ∪ tempFilesToCleanup st;
        children := children st |},
     []).

(** [this.tempFilesToCleanup.delete(path)] *)
Definition registry_delete (path : jsstring) : M unit :=
  fun st =>
    (Returned tt,
     {| disk := disk st;
        tempFilesToCleanup := tempFilesToCleanup st ∖ {[path]};
        children := children st |},
     []).

Fixpoint remove_first (x : jsstring) (l : list jsstring) : list jsstring :=
  match l with
  | [] => []
  | y :: l' => if bool_decide (x = y) then l' else y :: remove_first x l'
  end.

(** [exec] starts the child. *)
Definition spawn (command : jsstring) : M unit :=
  fun st =>
    (Returned tt,
     {| disk := disk st;
        tempFilesToCleanup := tempFilesToCleanup st;
        children := command :: children st |},
     [EvExec command]).

(** The child exits on its own, leaving its files. *)
Definition child_exit (command : jsstring) (run : ExecRun) : M unit :=
  fun st =>
    (Returned tt,
     {| disk := disk st ∪ run_files run;
        tempFilesToCleanup := tempFilesToCleanup st;
        children := remove_first command (children st) |},
     []).

(** Does the promise of [exec] settle before the timer fires? *)
Definition settles_first (timeout : Z) (run : ExecRun) : bool :=
  match run_time run with
  | Some d => (d <? timeout) || ((d =? timeout) && negb (run_tie_to_timer run))
  | None => false
  end.

(** The promise races a timer against the child.  When the timer wins the
    promise rejects; nothing is sent to the child, which goes on running. *)
Definition executeWithTimeout (env : Env) (command : jsstring)
    (timeout : Z) : M (jsstring * jsstring) :=
  let run := env_exec env command in
  let! _ := emit (EvSetTimeout timeout) in
  let! _ := spawn command in
  if settles_first timeout run then
    let! _ := child_exit command run in
    let! _ := emit EvClearTimeout in
    if run_exit run =? 0 then ret (run_stdout run, run_stderr run)
    else throw (str "Command failed: " ++ command ++ [10] ++ run_stderr run)
  else
    throw (str "Command execution timed out after " ++ decimal timeout
           ++ str "ms").

Definition failure (message : jsstring) (id : option jsstring)
    : ExtractionResult :=
  {| success := false; audioPath := None; filename := None;
     error := Some message; videoId := id |}.

Definition extractAudio (cfg : ExtractorConfig) (env : Env)
    (youtubeUrl : jsstring) : M ExtractionResult :=
  let! _ := emit (EvExtractAudio youtubeUrl) in
  try_catch
    (if negb (isValidYouTubeUrl youtubeUrl) then
       ret (failure (str "Invalid YouTube URL format") None)
     else
       match extractYouTubeVideoId youtubeUrl with
       | None => ret (failure (str "Could not extract video ID from URL") None)
       | Some id =>
           let! tempDir := tmpdir env in
           let! bytes := randomBytes env 8 in
           let randomId := to_hex bytes in
           let name :=
             str "viajera_" ++ id ++ str "_" ++ randomId ++ str "."
             ++ formatName (audioFormat cfg) in
           let path := join tempDir name in
           let ytdlpCommand := buildYtdlpCommand cfg youtubeUrl path in
           let! _ := console LogLevel
                       (str "[YouTube Extract] Starting extraction for: "
                        ++ id) in
           let! _ := console LogLevel
                       (str "[YouTube Extract] Command: " ++ ytdlpCommand) in
           let! output :=
             executeWithTimeout env ytdlpCommand (timeoutMs cfg) in
           let stderr := snd output in
           let! _ :=
             match stderr with
             | _ :: _ =>
                 if negb (includes stderr (str "WARNING")) then
                   console WarnLevel
                     (str "[YouTube Extract] Warnings during extraction: "
                      ++ stderr)
                 else ret tt
             | [] => ret tt
             end in
           let! created := existsSync path in
           if negb created then
             ret (failure
                    (str "Audio extraction failed: Output file not created")
                    (Some id))
           else
             let! _ := registry_add path in
             let! _ := console LogLevel
                         (str "[YouTube Extract] Successfully extracted to: "
                          ++ path) in
             ret {| success := true; audioPath := Some path;
                    filename := Some name; error := None;
                    videoId := Some id |}
       end)
    (fun message =>
       let! _ := console ErrorLevel (str "[YouTube Extract] Error:") in
       ret (failure
              (or_default message (str "Failed to extract audio from YouTube"))
              None)).

Definition cleanupFile (env : Env) (path : jsstring) : M bool :=
  let! _ := emit (EvCleanupFile path) in
  try_catch
    (let! present := existsSync path in
     if present then
       let! _ := unlink env path in
       let! _ := registry_delete path in
       let! _ := console LogLevel
                   (str "[YouTube Extract] Cleaned up: " ++ path) in
       ret true
     else ret false)
    (fun _ =>
       let! _ := console ErrorLevel
                   (str "[YouTube Extract] Cleanup error for " ++ path
                    ++ str ":") in
       ret false).

(** ** route.ts: the handler of POST /api/process-youtube-decimas *)

Definition getCacheKey (id : jsstring) : jsstring :=
  str "viajera:transcript:" ++ id.

(** The white space and line terminators [String.prototype.trim] removes. *)
Definition is_js_space (c : Z) : bool :=
  in_range 9 13 c || (c =? 32) || (c =? 160) || (c =? 5760)
  || in_range 8192 8202 c || (c =? 8232) || (c =? 8233) || (c =? 8239)
  || (c =? 8287) || (c =? 12288) || (c =? 65279).

Fixpoint trim_start (s : jsstring) : jsstring :=
  match s with
  | c :: s' => if is_js_space c then trim_start s' else s
  | [] => []
  end.

Definition trim (s : jsstring) : jsstring :=
  rev (trim_start (rev (trim_start s))).

(** [s.split(',')[0]] *)
Fixpoint before_comma (s : jsstring) : jsstring :=
  match s with
  | c :: s' => if c =? 44 then [] else c :: before_comma s'
  | [] => []
  end.

(** [s.split('/').pop()] *)
Fixpoint after_last_slash (s : jsstring) : jsstring :=
  match s with
  | c :: s' => if includes s' [47] then after_last_slash s'
               else if c =? 47 then s' else s
  | [] => []
  end.

(** The value of the [url] member of a parsed body. *)
Inductive JsValue :=
| JUndefined
| JString (s : jsstring)
| JOther.

Record Request := {
  x_forwarded_for : option jsstring;
  x_real_ip : option jsstring;
  (* request.json() followed by the destructuring of url *)
  json_url : outcome JsValue;
}.

Definition getClientIp (request : Request) : jsstring :=
  or_default
    (or_default
       (match x_forwarded_for request with
        | Some h => trim (before_comma h)
        | None => []
        end)
       (default [] (x_real_ip request)))
    (str "unknown").

Inductive Body :=
| BodyRateLimited (message : jsstring) (remaining resetAt : Z)
| BodyError (message : jsstring) (code : option jsstring)
| BodyOk (id transcript : jsstring) (fromCache : bool)
         (cacheKey nextStep : jsstring).

Record Response := {
  status : Z;
  body : Body;
}.

Definition json (b : Body) (code : Z) : Response :=
  {| status := code; body := b |}.

(** [readFile(path)] of fs/promises: it rejects when the path is absent. *)
Definition readFile (path : jsstring) : M unit :=
  fun st =>
    (if bool_decide (path ∈ disk st) then Returned tt
     else Thrown (str "ENOENT: no such file or directory, open '" ++ path
                  ++ str "'"),
     st, [EvReadFile path]).

(** The module-level function: it catches whatever reading the file or
    calling the endpoint throws. *)
Definition callTranscriptionApi (env : Env) (path : jsstring)
    : M TranscriptionResult :=
  try_catch
    (let! _ := readFile path in
     let name := or_default (after_last_slash path) (str "audio.mp3") in
     let apiUrl :=
       or_default (default [] (env_app_url env))
                  (str "http://localhost:3000") in
     let endpoint := apiUrl ++ str "/api/transcribe-audio" in
     let! _ := emit (EvFetch endpoint name) in
     lift (env_fetch env endpoint name))
    (fun message =>
       ret {| tr_success := false; tr_text := None;
              tr_error :=
                Some (or_default message
                        (str "Failed to call transcription API"));
              tr_code := Some (str "TRANSCRIPTION_FAILED") |}).

(** What [this] is bound to when the handler runs.  The handler is an
    exported function of a module: called as a plain function its [this]
    is undefined, called as a member of the module object its [this] is
    that object, which has the exported members only. *)
Inductive Receiver :=
| ThisUndefined
| ThisObject (method : option (jsstring -> M TranscriptionResult)).

(** [this.callTranscriptionApi(audioPath)] *)
Definition this_callTranscriptionApi (this : Receiver) (path : jsstring)
    : M TranscriptionResult :=
  match this with
  | ThisUndefined =>
      throw (str "Cannot read properties of undefined (reading 'callTranscriptionApi')")
  | ThisObject None => throw (str "this.callTranscriptionApi is not a function")
  | ThisObject (Some f) => f path
  end.

Definition url_required : jsstring :=
  str "YouTube URL is required. Expected: { url: " ++ [34]
  ++ str "https://www.youtube.com/watch?v=..." ++ [34] ++ str " }".

Definition nextStepText : jsstring :=
  str "Call /api/analyze-decimas with transcript for poetry analysis".

(** The cache lookup: a hit gives the transcript, anything else nothing. *)
Definition cacheLookup (env : Env) (id cacheKey : jsstring)
    : M (option jsstring) :=
  try_catch
    (let! _ := emit (EvRedisGet cacheKey) in
     let! cached := lift (env_redis_get env cacheKey) in
     match cached with
     | Some (c :: t) =>
         let! _ := console LogLevel
                     (str "[Process YouTube] Cache hit for video: " ++ id) in
         ret (Some (c :: t))
     | _ => ret None
     end)
    (fun _ =>
       let! _ := console WarnLevel
         (str "[Process YouTube] Cache lookup failed, proceeding with extraction:") in
       ret None).

(** The cache write after a transcription. *)
Definition cacheWrite (env : Env) (id cacheKey transcript : jsstring)
    : M unit :=
  try_catch
    (let! _ := emit (EvRedisSetex cacheKey 86400 transcript) in
     let! _ := lift (env_redis_setex env cacheKey 86400 transcript) in
     console LogLevel
       (str "[Process YouTube] Transcription cached for 24h: " ++ id))
    (fun _ =>
       console WarnLevel
         (str "[Process YouTube] Failed to cache transcription:")).

Definition respondOk (id transcript : jsstring) (fromCache : bool)
    (cacheKey : jsstring) : M Response :=
  let! _ := console LogLevel (str "[Process YouTube] Pipeline completed") in
  ret (json (BodyOk id transcript fromCache cacheKey nextStepText) 200).

(** After a successful extraction: transcribe, clean up, write the cache. *)
Definition transcribeAndRespond (env : Env) (this : Receiver)
    (id cacheKey path : jsstring) : M Response :=
  let! _ := console LogLevel
    (str "[Process YouTube] Audio extracted, calling transcription API...") in
  let! transcriptionResult := this_callTranscriptionApi this path in
  let! _ :=
    try_catch
      (let! _ := cleanupFile env path in ret tt)
      (fun _ =>
         console WarnLevel
           (str "[Process YouTube] Failed to cleanup audio file:")) in
  if negb (tr_success transcriptionResult) then
    let! _ := console ErrorLevel
                (str "[Process YouTube] Transcription failed:") in
    ret (json (BodyError
                 (or_default (default [] (tr_error transcriptionResult))
                    (str "Failed to transcribe audio"))
                 (tr_code transcriptionResult)) 500)
  else
    let transcript := default [] (tr_text transcriptionResult) in
    let! _ := cacheWrite env id cacheKey transcript in
    respondOk id transcript false cacheKey.

(** The branch taken on a cache miss: extract, then the above. *)
Definition extractAndTranscribe (env : Env) (this : Receiver)
    (url id cacheKey : jsstring) : M Response :=
  let! _ := console LogLevel
              (str "[Process YouTube] Cache miss, extracting audio for: "
               ++ id) in
  let! extractionResult := extractAudio (makeConfig noOptions) env url in
  if negb (success extractionResult) then
    let! _ := console ErrorLevel
                (str "[Process YouTube] Audio extraction failed:") in
    ret (json (BodyError
                 (or_default (default [] (error extractionResult))
                    (str "Failed to extract audio from YouTube"))
                 None) 500)
  else
    match audioPath extractionResult with
    | Some (c :: t) => transcribeAndRespond env this id cacheKey (c :: t)
    | _ =>
        ret (json (BodyError (str "Audio extraction returned no file path")
                     None) 500)
    end.

Definition POST (env : Env) (this : Receiver) (request : Request)
    : M Response :=
  let clientIp := getClientIp request in
  try_catch
    (let! _ := emit (EvRateLimit clientIp) in
     let! limit := lift (env_ratelimit env clientIp) in
     if negb (rl_success limit) then
       ret (json (BodyRateLimited
                    (str "Rate limit exceeded. Maximum 10 requests per minute.")
                    (rl_remaining limit) (rl_reset limit)) 429)
     else
       let! value := lift (json_url request) in
       match value with
       | JString (c :: t) =>
           let url := c :: t in
           if negb (isValidYouTubeUrl url) then
             ret (json (BodyError
               (str "Invalid YouTube URL format. Supported formats: https://www.youtube.com/watch?v=VIDEO_ID or https://youtu.be/VIDEO_ID")
               None) 400)
           else
             let! _ := console LogLevel
               (str "[Process YouTube] Starting pipeline for URL: " ++ url) in
             match inlineVideoId url with
             | Some (i :: d) =>
                 let id := i :: d in
                 let cacheKey := getCacheKey id in
                 let! cached := cacheLookup env id cacheKey in
                 match cached with
                 | Some transcript => respondOk id transcript true cacheKey
                 | None => extractAndTranscribe env this url id cacheKey
                 end
             | _ =>
                 ret (json (BodyError
                              (str "Could not extract video ID from URL")
                              None) 400)
             end
       | _ => ret (json (BodyError url_required None) 400)
       end)
    (fun message =>
       let! _ := console ErrorLevel
                   (str "[Process YouTube] Unexpected error:") in
       ret (json (BodyError
                    (or_default message (str "An unexpected error occurred"))
                    None) 500)).

(** ** lib/groq-client: the transcription client

    [getGroqClient().transcribe] is what the handler of
    /api/transcribe-audio calls.  The call to the SDK and the two draws of
    [Math.random] of each backoff are read from oracles; the jitter is
    computed on rationals, the floating-point rounding of the source left
    aside. *)

Module GroqClient.

Inductive GroqErrorCode :=
| GROQ_AUTH_ERROR
| RATE_LIMIT
| FILE_TOO_LARGE
| UNSUPPORTED_FORMAT
| SERVER_ERROR
| TIMEOUT
| UNKNOWN_ERROR.

(** The code inside a template literal. *)
Definition codeName (c : GroqErrorCode) : jsstring :=
  match c with
  | GROQ_AUTH_ERROR => str "GROQ_AUTH_ERROR"
  | RATE_LIMIT => str "RATE_LIMIT"
  | FILE_TOO_LARGE => str "FILE_TOO_LARGE"
  | UNSUPPORTED_FORMAT => str "UNSUPPORTED_FORMAT"
  | SERVER_ERROR => str "SERVER_ERROR"
  | TIMEOUT => str "TIMEOUT"
  | UNKNOWN_ERROR => str "UNKNOWN_ERROR"
  end.

Record TranscriptionResponse := {
  success : bool;
  text : option jsstring;
  error : option jsstring;
  code : option GroqErrorCode;
}.

Record RetryConfig := {
  maxAttempts : nat;
  baseDelayMs : Z;
  maxDelayMs : Z;
}.

(** The configuration the constructor sets. *)
Definition retryConfig : RetryConfig :=
  {| maxAttempts := 3; baseDelayMs := 1000; maxDelayMs := 10000 |}.

(** The local [delay] of [getBackoffDelay]: the backoff before jitter. *)
Definition delayBeforeJitter (cfg : RetryConfig) (attempt : nat) : Z :=
  Z.min (baseDelayMs cfg * 2 ^ Z.of_nat attempt) (maxDelayMs cfg).

(** [getBackoffDelay(attempt)] with its two draws of [Math.random()]. *)
Definition getBackoffDelay (cfg : RetryConfig) (attempt : nat)
    (random1 random2 : QArith_base.Q) : QArith_base.Q :=
  let delay := QArith_base.inject_Z (delayBeforeJitter cfg attempt) in
  let jitter :=
    QArith_base.Qmult (QArith_base.Qmult delay (QArith_base.Qmake 2 10))
      random1 in
  if QArith_base.Qlt_le_dec (QArith_base.Qmake 1 2) random2
  then QArith_base.Qplus delay jitter
  else QArith_base.Qplus delay (QArith_base.Qopp jitter).

(** What [classifyError] looks at in the value it caught. *)
Record CaughtError := {
  isAPIError : bool;                 (* error instanceof Groq.APIError *)
  err_status : option Z;
  err_message : option jsstring;
  err_name : option jsstring;
  err_code : option jsstring;
}.

(** [error.message?.includes(p)] *)
Definition messageIncludes (e : CaughtError) (p : jsstring) : bool :=
  match err_message e with
  | Some m => includes m p
  | None => false
  end.

Definition statusIs (e : CaughtError) (n : Z) : bool :=
  match err_status e with
  | Some s => s =? n
  | None => false
  end.

Definition classifyError (e : CaughtError) : GroqErrorCode :=
  let fromStatus :=
    if isAPIError e then
      if statusIs e 401 || statusIs e 403 then Some GROQ_AUTH_ERROR
      else if statusIs e 429 then Some RATE_LIMIT
      else if statusIs e 413 then Some FILE_TOO_LARGE
      else if match err_status e with
              | Some s => negb (s =? 0) && (500 <=? s)
              | None => false
              end
      then Some SERVER_ERROR
      else if messageIncludes e (str "unsupported")
              || messageIncludes e (str "format")
      then Some UNSUPPORTED_FORMAT
      else None
    else None in
  match fromStatus with
  | Some c => c
  | None =>
      if bool_decide (err_name e = Some (str "TimeoutError"))
         || bool_decide (err_code e = Some (str "ECONNABORTED"))
      then TIMEOUT
      else UNKNOWN_ERROR
  end.

(** The codes [transcribe] does not retry on. *)
Definition notRetried (c : GroqErrorCode) : bool :=
  match c with
  | GROQ_AUTH_ERROR | UNSUPPORTED_FORMAT | FILE_TOO_LARGE => true
  | RATE_LIMIT | SERVER_ERROR | TIMEOUT | UNKNOWN_ERROR => false
  end.

(** What [client.audio.transcriptions.create] does at one attempt. *)
Inductive ServiceAnswer :=
| Created (transcription : jsstring)
| Threw (e : CaughtError).

(** One turn of the loop: the attempt index, the classified error when the
    call threw, and, when the loop goes on, the backoff before jitter and
    the delay given to [setTimeout]. *)
Record Attempt := {
  attempt_index : nat;
  attempt_error : option GroqErrorCode;
  attempt_delay : option Z;
  attempt_sleep : option QArith_base.Q;
}.

Definition failed (message : jsstring) (c : GroqErrorCode)
    : TranscriptionResponse :=
  {| success := false; text := None; error := Some message; code := Some c |}.

(** The for loop of [transcribe], entered at [attempt] with [remaining]
    turns to go ([attempt + remaining] is [maxAttempts]). *)
Fixpoint attemptsFrom (cfg : RetryConfig) (service : nat -> ServiceAnswer)
    (random : nat -> QArith_base.Q) (remaining attempt : nat)
    : TranscriptionResponse * list Attempt :=
  match remaining with
  | O =>
      (failed (str "Transcription failed: Max retry attempts exceeded")
         UNKNOWN_ERROR, [])
  | S remaining' =>
      match service attempt with
      | Created transcription =>
          ({| success := true; text := Some transcription; error := None;
              code := None |},
           [ {| attempt_index := attempt; attempt_error := None;
                attempt_delay := None; attempt_sleep := None |} ])
      | Threw e =>
          let errorCode := classifyError e in
          let isLastAttempt := bool_decide (remaining' = O) in
          let message := default [] (err_message e) in
          let last :=
            {| attempt_index := attempt; attempt_error := Some errorCode;
               attempt_delay := None; attempt_sleep := None |} in
          if notRetried errorCode then
            (failed (or_default message
                       (str "Transcription failed: " ++ codeName errorCode))
               errorCode,
             [last])
          else if isLastAttempt then
            (failed (or_default message
                       (str "Transcription failed after "
                        ++ decimal (Z.of_nat (maxAttempts cfg))
                        ++ str " attempts"))
               errorCode,
             [last])
          else
            let delayMs :=
              getBackoffDelay cfg attempt (random (2 * attempt)%nat)
                (random (2 * attempt + 1)%nat) in
            let '(response, rest) :=
              attemptsFrom cfg service random remaining' (S attempt) in
            (response,
             {| attempt_index := attempt; attempt_error := Some errorCode;
                attempt_delay := Some (delayBeforeJitter cfg attempt);
                attempt_sleep := Some delayMs |}
             :: rest)
      end
  end.

(** [transcribe]: the response, and the turns of the loop in order. *)
Definition transcribe (cfg : RetryConfig) (service : nat -> ServiceAnswer)
    (random : nat -> QArith_base.Q)
    : TranscriptionResponse * list Attempt :=
  attemptsFrom cfg service random (maxAttempts cfg) 0.

End GroqClient.

(** ** The URL grammar in the words of the specification

    A recognized URL is an optional scheme, an optional www., one of the two
    hosts (the canonical watch form or the short-link form), an identifier
    of exactly 11 characters, and optional trailing query parameters. *)

Definition schemes : list jsstring := [ []; str "http://"; str "https://" ].
Definition subdomains : list jsstring := [ []; str "www." ].
Definition hosts : list jsstring :=
  [ str "youtube.com/watch?v="; str "youtu.be/" ].

(** An 11-character token over letters, digits, hyphen and underscore. *)
Definition is_token (t : jsstring) : Prop :=
  length t = 11%nat ∧ Forall (fun c => id_char c = true) t.

(** Trailing query parameters: nothing, or an ampersand or question mark
    followed by characters of one line. *)
Definition is_query (q : jsstring) : Prop :=
  q = [] ∨
  ∃ c rest, q = c :: rest ∧ amp_or_question c = true
            ∧ Forall (fun a => dot a = true) rest.

Inductive recognized (token : jsstring) : jsstring -> Prop :=
| recognized_url scheme www host query :
    scheme ∈ schemes -> www ∈ subdomains -> host ∈ hosts ->
    is_token token -> is_query query ->
    recognized token (scheme ++ www ++ host ++ token ++ query).

(** ** What a match is, without the search order

    [matches whole r s caps s' caps']: [r] can match at [s], leaving [s']
    and the captures [caps']. *)
Inductive matches (whole : jsstring)
    : regex -> jsstring -> captures -> jsstring -> captures -> Prop :=
| matches_bol s caps :
    length s = length whole -> matches whole RBol s caps s caps
| matches_eol caps : matches whole REol [] caps [] caps
| matches_lit l s caps : matches whole (RLit l) (l ++ s) caps s caps
| matches_set (p : Z -> bool) c s caps :
    p c = true -> matches whole (RSet p) (c :: s) caps s caps
| matches_star (p : Z -> bool) t s caps :
    Forall (fun c => p c = true) t ->
    matches whole (RStarSet p) (t ++ s) caps s caps
| matches_seq r1 r2 s caps s1 caps1 s2 caps2 :
    matches whole r1 s caps s1 caps1 -> matches whole r2 s1 caps1 s2 caps2 ->
    matches whole (RSeq r1 r2) s caps s2 caps2
| matches_alt_l r1 r2 s caps s' caps' :
    matches whole r1 s caps s' caps' ->
    matches whole (RAlt r1 r2) s caps s' caps'
| matches_alt_r r1 r2 s caps s' caps' :
    matches whole r2 s caps s' caps' ->
    matches whole (RAlt r1 r2) s caps s' caps'
| matches_opt_some r s caps s' caps' :
    matches whole r s caps s' caps' ->
    matches whole (ROpt r) s caps s' caps'
| matches_opt_none r s caps : matches whole (ROpt r) s caps s caps
| matches_group i r s caps s' caps' :
    matches whole r s caps s' caps' ->
    matches whole (RGroup i r) s caps s' (<[i := consumed s s']> caps').

(** The two patterns with their identifier groups left open: what precedes
    the identifier in [YOUTUBE_URL_REGEX], what follows it, and
    [VIDEO_ID_REGEX] around its two groups. *)
Definition url_head (rest : regex) : regex :=
  RSeq (ROpt (RGroup 1 (RSeq (RLit (str "http"))
                       (RSeq (ROpt (RLit (str "s"))) (RLit (str "://"))))))
  (RSeq (ROpt (RGroup 2 (RLit (str "www."))))
  (RSeq (RGroup 3 (RAlt (RLit (str "youtube.com/watch?v="))
                        (RLit (str "youtu.be/"))))
        rest)).

Definition url_tail : regex :=
  RSeq (RGroup 4 (rrep 11 (RSet id_char)))
  (RSeq (ROpt (RGroup 5 (RSeq (RSet amp_or_question) (RStarSet dot))))
        REol).

Definition video_id_pattern (g1 g2 : regex) : regex :=
  RAlt (RSeq (RSet question_or_amp) (RSeq (RLit (str "v=")) g1))
       (RSeq (RLit (str "youtu.be/")) g2).

(** ** Sample inputs *)

Definition default_config : ExtractorConfig := makeConfig noOptions.

Definition sample_id : jsstring := str "dQw4w9WgXcQ".
Definition sample_url : jsstring := str "https://youtu.be/dQw4w9WgXcQ".
Definition sample_path : jsstring :=
  str "/tmp/viajera_dQw4w9WgXcQ_0001020304050607.mp3".

(** An accepted URL whose query closes the quote, runs a command of its
    own and reopens a quote. *)
Definition injected_url : jsstring :=
  str "https://youtu.be/dQw4w9WgXcQ?x=';touch /tmp/pwned;'".

Definition sample_run : ExecRun :=
  {| run_time := Some 4000; run_tie_to_timer := false; run_exit := 0;
     run_stdout := []; run_stderr := []; run_files := {[sample_path]} |}.

Definition sample_transcription : TranscriptionResult :=
  {| tr_success := true; tr_text := Some (str "Yo soy la viajera");
     tr_error := None; tr_code := None |}.

(** A well-behaved world: the limiter admits, the cache is empty, yt-dlp
    writes its file in four seconds, the transcription endpoint answers. *)
Definition sample_env : Env :=
  {| env_tmpdir := str "/tmp";
     env_randomBytes := [0; 1; 2; 3; 4; 5; 6; 7];
     env_exec := fun _ => sample_run;
     env_unlink_error := fun _ => None;
     env_ratelimit := fun _ =>
       Returned {| rl_success := true; rl_remaining := 9; rl_reset := 0 |};
     env_redis_get := fun _ => Returned None;
     env_redis_setex := fun _ _ _ => Returned tt;
     env_app_url := None;
     env_fetch := fun _ _ => Returned sample_transcription |}.

Definition sample_request : Request :=
  {| x_forwarded_for := Some (str "203.0.113.7, 10.0.0.1");
     x_real_ip := None;
     json_url := Returned (JString sample_url) |}.

Definition empty_state : State :=
  {| disk := ∅; tempFilesToCleanup := ∅; children := [] |}.

(** The same world with another run of the command, another answer to
    unlink, or another answer of the cache. *)
Definition with_exec (env : Env) (f : jsstring -> ExecRun) : Env :=
  {| env_tmpdir := env_tmpdir env;
     env_randomBytes := env_randomBytes env;
     env_exec := f;
     env_unlink_error := env_unlink_error env;
     env_ratelimit := env_ratelimit env;
     env_redis_get := env_redis_get env;
     env_redis_setex := env_redis_setex env;
     env_app_url := env_app_url env;
     env_fetch := env_fetch env |}.

Definition with_unlink_error (env : Env)
    (f : jsstring -> option jsstring) : Env :=
  {| env_tmpdir := env_tmpdir env;
     env_randomBytes := env_randomBytes env;
     env_exec := env_exec env;
     env_unlink_error := f;
     env_ratelimit := env_ratelimit env;
     env_redis_get := env_redis_get env;
     env_redis_setex := env_redis_setex env;
     env_app_url := env_app_url env;
     env_fetch := env_fetch env |}.

Definition with_redis_get (env : Env)
    (f : jsstring -> outcome (option jsstring)) : Env :=
  {| env_tmpdir := env_tmpdir env;
     env_randomBytes := env_randomBytes env;
     env_exec := env_exec env;
     env_unlink_error := env_unlink_error env;
     env_ratelimit := env_ratelimit env;
     env_redis_get := f;
     env_redis_setex := env_redis_setex env;
     env_app_url := env_app_url env;
     env_fetch := env_fetch env |}.

Definition with_redis_setex (env : Env)
    (f : jsstring -> Z -> jsstring -> outcome unit) : Env :=
  {| env_tmpdir := env_tmpdir env;
     env_randomBytes := env_randomBytes env;
     env_exec := env_exec env;
     env_unlink_error := env_unlink_error env;
     env_ratelimit := env_ratelimit env;
     env_redis_get := env_redis_get env;
     env_redis_setex := f;
     env_app_url := env_app_url env;
     env_fetch := env_fetch env |}.

(** The temporary file of one extraction, and its command line. *)
Definition outputName (cfg : ExtractorConfig) (env : Env) (id : jsstring)
    : jsstring :=
  str "viajera_" ++ id ++ str "_" ++ to_hex (env_randomBytes env) ++ str "."
  ++ formatName (audioFormat cfg).

Definition outputPath (cfg : ExtractorConfig) (env : Env) (id : jsstring)
    : jsstring :=
  join (env_tmpdir env) (outputName cfg env id).

Definition commandFor (cfg : ExtractorConfig) (env : Env)
    (url id : jsstring) : jsstring :=
  buildYtdlpCommand cfg url (outputPath cfg env id).

(** The run of the command outlasts the timeout. *)
Definition exceeds (timeout : Z) (run : ExecRun) : Prop :=
  match run_time run with
  | Some d => timeout < d
  | None => True
  end.

(** How many times [cleanupFile path] was entered. *)
Definition is_cleanup_of (path : jsstring) (e : Event) : bool :=
  match e with
  | EvCleanupFile p => bool_decide (p = path)
  | _ => false
  end.

Definition cleanup_calls (path : jsstring) (trace : list Event) : nat :=
  length (List.filter (is_cleanup_of path) trace).

(** The file is gone from the disk but still in the registry. *)
Definition stale_state : State :=
  {| disk := ∅; tempFilesToCleanup := {[sample_path]}; children := [] |}.

(** yt-dlp takes ten minutes, twice the default timeout. *)
Definition slow_env : Env :=
  with_exec sample_env
    (fun _ => {| run_time := Some 600000; run_tie_to_timer := false;
                 run_exit := 0; run_stdout := []; run_stderr := [];
                 run_files := {[sample_path]} |}).



(** The response the handler gives once it holds a transcription result. *)
Definition responseFor (id cacheKey : jsstring) (t : TranscriptionResult)
    : Response :=
  if negb (tr_success t) then
    json (BodyError
            (or_default (default [] (tr_error t))
               (str "Failed to transcribe audio"))
            (tr_code t)) 500
  else json (BodyOk id (default [] (tr_text t)) false cacheKey nextStepText) 200.

(** The handler bound to an object that has the module's function as its
    [callTranscriptionApi] member. *)
Definition bound (env : Env) : Receiver :=
  ThisObject (Some (callTranscriptionApi env)).

(** The transcription service is down: the SDK throws a 503. *)
Definition server_down : GroqClient.CaughtError :=
  {| GroqClient.isAPIError := true;
     GroqClient.err_status := Some 503;
     GroqClient.err_message := Some (str "Service Unavailable");
     GroqClient.err_name := Some (str "Error");
     GroqClient.err_code := None |}.

(** The transcription service rejects the key: the SDK throws a 401. *)
Definition bad_key : GroqClient.CaughtError :=
  {| GroqClient.isAPIError := true;
     GroqClient.err_status := Some 401;
     GroqClient.err_message := Some (str "Invalid API Key");
     GroqClient.err_name := Some (str "Error");
     GroqClient.err_code := None |}.



Definition no_jitter (_ : nat) : QArith_base.Q := QArith_base.Qmake 0 1.

(** ** app/api/transcribe-audio/route.ts: the handler that calls the client *)

Module TranscribeRoute.

Definition MAX_FILE_SIZE : Z := 25 * 1024 * 1024.

Definition SUPPORTED_FORMATS : list jsstring :=
  [ str "audio/mpeg"; str "audio/mp4"; str "audio/wav"; str "audio/webm";
    str "audio/m4a" ].

Definition SUPPORTED_EXTENSIONS : list jsstring :=
  [ str ".mp3"; str ".mp4"; str ".wav"; str ".webm"; str ".m4a" ].

Record File := {
  name : jsstring;
  size : Z;
  type : jsstring;
}.

(** [toLowerCase] on the letters A to Z.  The lowered name is only tested
    against the five extensions above, and no character outside A to Z
    lowers to a letter of theirs. *)
Definition lower (c : Z) : Z := if in_range 65 90 c then c + 32 else c.

Definition toLowerCase (s : jsstring) : jsstring := map lower s.

(** [s.endsWith(suffix)] *)
Definition endsWith (s suffix : jsstring) : bool :=
  match strip_prefix (rev suffix) (rev s) with
  | Some _ => true
  | None => false
  end.

(** [list.includes(x)] *)
Definition listIncludes (l : list jsstring) (x : jsstring) : bool :=
  existsb (fun y => bool_decide (x = y)) l.

Definition two_digits (n : Z) : jsstring := [48 + n / 10; 48 + n mod 10].

(** [(bytes / 1024 / 1024).toFixed(2)] for a byte count: both divisions
    are exact, and [toFixed] rounds the hundredths half up. *)
Definition megabytesFixed2 (bytes : Z) : jsstring :=
  let hundredths := (bytes * 200 + 1048576) / 2097152 in
  decimal (hundredths / 100) ++ str "." ++ two_digits (hundredths mod 100).

(** The result of [validateAudioFile]: valid, or invalid with its error. *)
Inductive Validation :=
| Valid
| Invalid (error : jsstring).

Definition validateAudioFile (file : File) (mimeType : option jsstring)
    : Validation :=
  let filename := toLowerCase (name file) in
  let hasValidExtension :=
    existsb (fun ext => endsWith filename ext) SUPPORTED_EXTENSIONS in
  if negb hasValidExtension then
    Invalid (str "Unsupported audio format. Supported formats: "
             ++ join_with (str ", ") SUPPORTED_EXTENSIONS)
  else if MAX_FILE_SIZE <? size file then
    Invalid (str "File size exceeds maximum of "
             ++ decimal (MAX_FILE_SIZE / 1024 / 1024)
             ++ str "MB. Your file: " ++ megabytesFixed2 (size file)
             ++ str "MB")
  else
    match mimeType with
    | Some (c :: t) =>
        if negb (listIncludes SUPPORTED_FORMATS (c :: t)) then
          Invalid (str "Unsupported MIME type: " ++ (c :: t)
                   ++ str ". Supported types: "
                   ++ join_with (str ", ") SUPPORTED_FORMATS)
        else Valid
    | _ => Valid
    end.

Record Response := {
  status : Z;
  success : bool;
  text : option jsstring;
  error : option jsstring;
  code : option GroqClient.GroqErrorCode;
}.

Definition errorResponse (message : jsstring) (c : GroqClient.GroqErrorCode)
    (statusCode : Z) : Response :=
  {| status := statusCode; success := false; text := None;
     error := Some message; code := Some c |}.

(** What [formData.get('audio')] gives. *)
Inductive FormEntry :=
| EntryFile (f : File)
| EntryString (s : jsstring).

Record Request := {
  (* request.formData() followed by get('audio') *)
  formData : outcome (option FormEntry);
  (* audioFile.arrayBuffer() *)
  arrayBuffer : outcome unit;
}.

Record Env := {
  (* the singleton client was built by an earlier request *)
  clientBuilt : bool;
  (* process.env.GROQ_API_KEY *)
  GROQ_API_KEY : option jsstring;
  (* the SDK call, for a file name and a MIME type, at each attempt *)
  service : jsstring -> jsstring -> nat -> GroqClient.ServiceAnswer;
  random : nat -> QArith_base.Q;
}.

(** [getGroqClient()]: the constructor throws when the key is not set. *)
Definition getGroqClient (env : Env) : outcome unit :=
  if clientBuilt env then Returned tt
  else
    match GROQ_API_KEY env with
    | Some (_ :: _) => Returned tt
    | _ => Thrown (str "GROQ_API_KEY environment variable is not set")
    end.

Definition unexpected (message : jsstring) : Response :=
  errorResponse
    (or_default message
       (str "An unexpected error occurred during transcription"))
    GroqClient.UNKNOWN_ERROR 500.

(** The status the handler picks for a failed transcription. *)
Definition statusFor (c : option GroqClient.GroqErrorCode) : Z :=
  match c with
  | Some GroqClient.FILE_TOO_LARGE | Some GroqClient.UNSUPPORTED_FORMAT => 400
  | Some GroqClient.GROQ_AUTH_ERROR => 401
  | Some GroqClient.RATE_LIMIT => 429
  | _ => 500
  end.

(** The handler: its response, and the attempts the client made. *)
Definition POST (env : Env) (request : Request)
    : Response * list GroqClient.Attempt :=
  match formData request with
  | Thrown message => (unexpected message, [])
  | Returned (Some (EntryFile audioFile)) =>
      match validateAudioFile audioFile None with
      | Invalid message =>
          (errorResponse (or_default message (str "Invalid audio file"))
             (if includes message (str "format")
              then GroqClient.UNSUPPORTED_FORMAT
              else GroqClient.FILE_TOO_LARGE)
             400,
           [])
      | Valid =>
          match arrayBuffer request with
          | Thrown message => (unexpected message, [])
          | Returned _ =>
              match getGroqClient env with
              | Thrown message => (unexpected message, [])
              | Returned _ =>
                  let '(result, attempts) :=
                    GroqClient.transcribe GroqClient.retryConfig
                      (service env (name audioFile)
                         (or_default (type audioFile) (str "audio/mpeg")))
                      (random env) in
                  if negb (GroqClient.success result) then
                    (errorResponse
                       (or_default (default [] (GroqClient.error result))
                          (str "Transcription failed"))
                       (default GroqClient.UNKNOWN_ERROR
                          (GroqClient.code result))
                       (statusFor (GroqClient.code result)),
                     attempts)
                  else
                    ({| status := 200; success := true;
                        text := GroqClient.text result; error := None;
                        code := None |},
                     attempts)
              end
          end
      end
  | Returned _ =>
      (errorResponse
         (str "No audio file provided. Please upload a file with key "
          ++ [34] ++ str "audio" ++ [34])
         GroqClient.UNSUPPORTED_FORMAT 400,
       [])
  end.

End TranscribeRoute.

(** ** More sample inputs *)

Definition sample_upload : TranscribeRoute.File :=
  {| TranscribeRoute.name := str "Decima.MP3";
     TranscribeRoute.size := 1048576;
     TranscribeRoute.type := str "audio/mpeg" |}.

Definition oversize_upload : TranscribeRoute.File :=
  {| TranscribeRoute.name := str "decima.wav";
     TranscribeRoute.size := 27000000;
     TranscribeRoute.type := str "audio/wav" |}.

Definition text_upload : TranscribeRoute.File :=
  {| TranscribeRoute.name := str "notes.txt";
     TranscribeRoute.size := 12;
     TranscribeRoute.type := str "text/plain" |}.

Definition upload_request (f : TranscribeRoute.File)
    : TranscribeRoute.Request :=
  {| TranscribeRoute.formData := Returned (Some (TranscribeRoute.EntryFile f));
     TranscribeRoute.arrayBuffer := Returned tt |}.

(** The SDK fails once with a 503 and then answers. *)
Definition flaky_service (_ _ : jsstring) (n : nat) : GroqClient.ServiceAnswer :=
  match n with
  | O => GroqClient.Threw server_down
  | S _ => GroqClient.Created (str "Yo soy la viajera")
  end.

Definition route_env : TranscribeRoute.Env :=
  {| TranscribeRoute.clientBuilt := false;
     TranscribeRoute.GROQ_API_KEY := Some (str "gsk_test");
     TranscribeRoute.service := flaky_service;
     TranscribeRoute.random := no_jitter |}.

(** A cache that holds the transcript of the sample video. *)
Definition warm_env : Env :=
  with_redis_get sample_env (fun _ => Returned (Some (str "Yo soy la viajera"))).


(** What the handler does only after a successful extraction: the
    transcription call (its read of the file and its request), the cleanup
    (and its unlink) and the cache write. *)
Definition after_extraction (e : Event) : bool :=
  match e with
  | EvCleanupFile _ | EvUnlink _ | EvReadFile _ | EvFetch _ _
  | EvRedisSetex _ _ _ => true
  | _ => false
  end.

(** * Properties *)

(** ** Strings *)

Lemma strip_prefix_app (l s : jsstring) : strip_prefix l (l ++ s) = Some s.
Proof. induction l as [|a l IH]; simpl; [done|]. by rewrite Z.eqb_refl. Qed.

Lemma strip_prefix_Some (l s s' : jsstring) :
  strip_prefix l s = Some s' -> s = l ++ s'.
Proof.
  revert s. induction l as [|a l IH]; intros [|b s]; simpl; try congruence.
  destruct (Z.eqb_spec a b); [|done]. intros H. subst. f_equal. by apply IH.
Qed.

Lemma consumed_app (t s : jsstring) : consumed (t ++ s) s = t.
Proof.
  unfold consumed. rewrite length_app.
  replace (length t + length s - length s)%nat with (length t) by lia.
  by rewrite take_app_length.
Qed.

(** ** The matcher *)

Arguments consumed : simpl never.
Arguments rrep : simpl never.
Arguments id_char c : simpl nomatch.
Arguments amp_or_question c : simpl nomatch.
Arguments question_or_amp c : simpl nomatch.
Arguments dot c : simpl nomatch.

Lemma star_set_all {R} (p : Z -> bool) (s : jsstring)
    (k : jsstring -> option R) x :
  Forall (fun c => p c = true) s -> k [] = Some x -> star_set p s k = Some x.
Proof.
  intros Hs Hk. induction Hs as [|c s Hc Hs IH]; simpl; [done|].
  by rewrite Hc, IH.
Qed.

Lemma rmatch_rrep_set {R} (p : Z -> bool) (n : nat) (t s whole : jsstring)
    caps (k : jsstring -> captures -> option R) :
  length t = n -> Forall (fun c => p c = true) t ->
  rmatch (rrep n (RSet p)) whole (t ++ s) caps k = k s caps.
Proof.
  intros <- Ht. induction Ht as [|c t Hc Ht IH]; simpl; [done|].
  unfold rrep; simpl. rewrite Hc. apply IH.
Qed.

(** The matcher only succeeds through its continuation, at a point the
    pattern can reach. *)
Lemma star_set_sound {R} (p : Z -> bool) (s : jsstring)
    (k : jsstring -> option R) x :
  star_set p s k = Some x ->
  ∃ t s', s = t ++ s' ∧ Forall (fun c => p c = true) t ∧ k s' = Some x.
Proof.
  induction s as [|c s IH]; simpl.
  - intros H. by exists [], [].
  - destruct (p c) eqn:Hc.
    + destruct (star_set p s k) eqn:Hs.
      * intros [= ->]. destruct (IH eq_refl) as (t & s' & -> & Ht & Hk).
        exists (c :: t), s'. by repeat split; [constructor|].
      * intros H. by exists [], (c :: s).
    + intros H. by exists [], (c :: s).
Qed.

Lemma rmatch_sound {R} (whole : jsstring) (r : regex) :
  ∀ (s : jsstring) caps (k : jsstring -> captures -> option R) x,
    rmatch r whole s caps k = Some x ->
    ∃ s' caps', matches whole r s caps s' caps' ∧ k s' caps' = Some x.
Proof.
  induction r as [| |l|p|p|r1 IH1 r2 IH2|r1 IH1 r2 IH2|r IH|i r IH];
    intros s caps k x; simpl.
  - destruct (Nat.eqb_spec (length s) (length whole)); [|done].
    intros H. exists s, caps. split; [by constructor|done].
  - destruct s; [|done]. intros H. exists [], caps. split; [constructor|done].
  - destruct (strip_prefix l s) as [s'|] eqn:Hl; [|done].
    apply strip_prefix_Some in Hl as ->. intros H.
    exists s', caps. split; [constructor|done].
  - destruct s as [|c s]; [done|]. destruct (p c) eqn:Hc; [|done].
    intros H. exists s, caps. split; [by constructor|done].
  - intros H. apply star_set_sound in H as (t & s' & -> & Ht & Hk).
    exists s', caps. split; [by constructor|done].
  - intros H. apply IH1 in H as (s1 & caps1 & H1 & H).
    apply IH2 in H as (s2 & caps2 & H2 & H).
    exists s2, caps2. split; [by econstructor|done].
  - destruct (rmatch r1 whole s caps k) eqn:E1.
    + intros [= ->]. apply IH1 in E1 as (s' & caps' & H1 & H).
      exists s', caps'. split; [by apply matches_alt_l|done].
    + intros H. apply IH2 in H as (s' & caps' & H2 & H).
      exists s', caps'. split; [by apply matches_alt_r|done].
  - destruct (rmatch r whole s caps k) eqn:E1.
    + intros [= ->]. apply IH in E1 as (s' & caps' & H1 & H).
      exists s', caps'. split; [by apply matches_opt_some|done].
    + intros H. exists s, caps. split; [apply matches_opt_none|done].
  - intros H. apply IH in H as (s' & caps' & H1 & H).
    exists s', (<[i := consumed s s']> caps'). split; [by constructor|done].
Qed.

Lemma search_sound (r : regex) (whole s : jsstring) m :
  search r whole s = Some m ->
  ∃ skipped s0, s = skipped ++ s0 ∧ match_here r whole s0 = Some m.
Proof.
  induction s as [|c s IH]; simpl.
  - destruct (match_here r whole []) eqn:E; [|done].
    intros [= ->]. by exists [], [].
  - destruct (match_here r whole (c :: s)) eqn:E.
    + intros [= ->]. by exists [], (c :: s).
    + intros H. destruct (IH H) as (sk & s0 & -> & H0).
      by exists (c :: sk), s0.
Qed.

(** Inversion, one pattern former at a time. *)
Section Inversion.
Context (whole s s' : jsstring) (caps caps' : captures).

Lemma matches_bol_inv :
  matches whole RBol s caps s' caps' ->
  length s = length whole ∧ s' = s ∧ caps' = caps.
Proof. by inversion 1. Qed.

Lemma matches_eol_inv : matches whole REol s caps s' caps' -> s = [] ∧ s' = [].
Proof. by inversion 1. Qed.

Lemma matches_lit_inv l : matches whole (RLit l) s caps s' caps' -> s = l ++ s'.
Proof. by inversion 1. Qed.

Lemma matches_set_inv p :
  matches whole (RSet p) s caps s' caps' -> ∃ c, s = c :: s' ∧ p c = true.
Proof. inversion 1; subst; eauto. Qed.

Lemma matches_star_inv p :
  matches whole (RStarSet p) s caps s' caps' ->
  ∃ t, s = t ++ s' ∧ Forall (fun c => p c = true) t.
Proof. inversion 1; subst; eauto. Qed.

Lemma matches_seq_inv r1 r2 :
  matches whole (RSeq r1 r2) s caps s' caps' ->
  ∃ s1 caps1, matches whole r1 s caps s1 caps1
              ∧ matches whole r2 s1 caps1 s' caps'.
Proof. inversion 1; subst; eauto. Qed.

Lemma matches_alt_inv r1 r2 :
  matches whole (RAlt r1 r2) s caps s' caps' ->
  matches whole r1 s caps s' caps' ∨ matches whole r2 s caps s' caps'.
Proof. inversion 1; subst; eauto. Qed.

Lemma matches_opt_inv r :
  matches whole (ROpt r) s caps s' caps' ->
  matches whole r s caps s' caps' ∨ s' = s.
Proof. inversion 1; subst; eauto. Qed.

Lemma matches_group_inv i r :
  matches whole (RGroup i r) s caps s' caps' ->
  ∃ caps1, matches whole r s caps s' caps1.
Proof. inversion 1; subst; eauto. Qed.

End Inversion.

Lemma matches_rrep_set_inv (whole : jsstring) (p : Z -> bool) (n : nat) :
  ∀ s caps s' caps',
    matches whole (rrep n (RSet p)) s caps s' caps' ->
    ∃ t, s = t ++ s' ∧ length t = n ∧ Forall (fun c => p c = true) t.
Proof.
  induction n as [|n IH]; intros s caps s' caps' H.
  - apply matches_lit_inv in H. by exists [].
  - apply matches_seq_inv in H as (s1 & caps1 & H1 & H2).
    apply matches_set_inv in H1 as (c & -> & Hc).
    apply IH in H2 as (t & -> & Hn & Ht).
    exists (c :: t). repeat split; [by simpl; rewrite Hn|by constructor].
Qed.

Ltac inv_matches :=
  repeat match goal with
  | H : matches _ REol _ _ _ _ |- _ =>
      apply matches_eol_inv in H as [? ?]; subst
  | H : matches _ (RLit _) _ _ _ _ |- _ =>
      apply matches_lit_inv in H; subst
  | H : matches _ (RSet _) _ _ _ _ |- _ =>
      apply matches_set_inv in H as (? & ? & ?); subst
  | H : matches _ (RStarSet _) _ _ _ _ |- _ =>
      apply matches_star_inv in H as (? & ? & ?); subst
  | H : matches _ (rrep _ (RSet _)) _ _ _ _ |- _ =>
      apply matches_rrep_set_inv in H as (? & ? & ? & ?); subst
  | H : matches _ (RSeq _ _) _ _ _ _ |- _ =>
      apply matches_seq_inv in H as (? & ? & ? & ?)
  | H : matches _ (RAlt _ _) _ _ _ _ |- _ =>
      apply matches_alt_inv in H as [?|?]
  | H : matches _ (ROpt _) _ _ _ _ |- _ =>
      apply matches_opt_inv in H as [?|?]; subst
  | H : matches _ (RGroup _ _) _ _ _ _ |- _ =>
      apply matches_group_inv in H as (? & ?)
  end.

(** A pattern that begins with ^ matches at the first position or
    nowhere. *)
Lemma search_anchored (r : regex) (url : jsstring) m :
  search (RSeq RBol r) url url = Some m ->
  ∃ s' caps', matches url r url ∅ s' caps'.
Proof.
  intros E. apply search_sound in E as (skipped & s0 & Hurl & E).
  apply rmatch_sound in E as (s' & caps' & Hm & _).
  apply matches_seq_inv in Hm as (s1 & caps1 & Hb & Hm).
  apply matches_bol_inv in Hb as (Hlen & -> & ->).
  rewrite Hurl, length_app in Hlen.
  destruct skipped; [|simpl in Hlen; lia]. simpl in Hurl. subst s0. eauto.
Qed.

Lemma is_query_cons c rest :
  amp_or_question c = true -> Forall (fun a => dot a = true) rest ->
  is_query (c :: rest).
Proof. intros. right. eauto. Qed.

Lemma recognized_intro scheme www host token query url :
  scheme ∈ schemes -> www ∈ subdomains -> host ∈ hosts ->
  is_token token -> is_query query ->
  url = scheme ++ www ++ host ++ token ++ query ->
  recognized token url.
Proof. intros ? ? ? ? ? ->. by constructor. Qed.

Ltac pick_member :=
  unfold schemes, subdomains, hosts;
  first [ apply list_elem_of_here
        | apply list_elem_of_further, list_elem_of_here
        | do 2 apply list_elem_of_further; apply list_elem_of_here ].

Ltac try_form sc w h t q :=
  apply (recognized_intro sc w h t q);
  [ | | | | | first [reflexivity | by rewrite app_nil_r] ];
  [ pick_member | pick_member | pick_member | by split
  | first [by left | by apply is_query_cons] ].

(** Try the twelve prefixes on a goal [recognized t url]. *)
Ltac pick_form t q :=
  let watch := constr:(str "youtube.com/watch?v=") in
  let short := constr:(str "youtu.be/") in
  let www := constr:(str "www.") in
  let http := constr:(str "http://") in
  let https := constr:(str "https://") in
  let none := constr:(@nil Z) in
  first
    [ try_form none none watch t q | try_form none none short t q
    | try_form none www watch t q | try_form none www short t q
    | try_form http none watch t q | try_form http none short t q
    | try_form http www watch t q | try_form http www short t q
    | try_form https none watch t q | try_form https none short t q
    | try_form https www watch t q | try_form https www short t q ].

(** Whatever the pattern accepts has the shape the specification
    describes. *)
Lemma valid_recognized (url : jsstring) :
  isValidYouTubeUrl url = true -> ∃ token, recognized token url.
Proof.
  unfold isValidYouTubeUrl, regex_test, regex_exec.
  destruct (search YOUTUBE_URL_REGEX url url) as [m|] eqn:E; [intros _|done].
  apply search_anchored in E as (s' & caps' & Hm).
  remember url as whole in Hm at 1. clear Heqwhole.
  inv_matches; rewrite ?app_nil_r;
    match goal with Ht : length ?t = 11%nat |- _ => exists t end.
  all: match goal with
       | |- context [?t ++ ?c :: ?rest] =>
           pick_form t (c :: rest)
       | Ht : length ?t = 11%nat |- _ =>
           pick_form t (@nil Z)
       end.
Qed.

(** ** Running the matcher on a recognized URL *)

Lemma YOUTUBE_URL_REGEX_split :
  YOUTUBE_URL_REGEX = RSeq RBol (url_head url_tail).
Proof. reflexivity. Qed.

Lemma VIDEO_ID_REGEX_split :
  VIDEO_ID_REGEX =
  video_id_pattern (RGroup 1 (rrep 11 (RSet id_char)))
                   (RGroup 2 (rrep 11 (RSet id_char))).
Proof. reflexivity. Qed.

Ltac norm_str :=
  repeat match goal with
  | |- context [str ?s] =>
      let v := eval vm_compute in (str s) in change (str s) with v
  end.

Ltac split_member H :=
  unfold schemes, subdomains, hosts in H;
  repeat match type of H with
  | _ ∈ _ :: _ => apply elem_of_cons in H as [->|H]
  | _ ∈ [] => by apply elem_of_nil in H
  end.

Lemma rmatch_bol_start {R} (r : regex) (whole : jsstring) caps
    (k : jsstring -> captures -> option R) :
  rmatch (RSeq RBol r) whole whole caps k = rmatch r whole whole caps k.
Proof. simpl. by rewrite Nat.eqb_refl. Qed.

Lemma rmatch_group_token {R} (i : nat) (t s whole : jsstring) caps
    (k : jsstring -> captures -> option R) :
  is_token t ->
  rmatch (RGroup i (rrep 11 (RSet id_char))) whole (t ++ s) caps k
  = k s (<[i := t]> caps).
Proof.
  intros [Hlen Ht]. cbn [rmatch].
  rewrite rmatch_rrep_set by done. by rewrite consumed_app.
Qed.

Lemma star_set_to_end {R} (p : Z -> bool) (s : jsstring)
    (k : jsstring -> option R) :
  Forall (fun c => p c = true) s -> (∀ c s', k (c :: s') = None) ->
  star_set p s k = k [].
Proof.
  intros Hs Hk. induction Hs as [|c s Hc Hs IH]; simpl; [done|].
  rewrite Hc, IH, Hk. by destruct (k []).
Qed.

(** What follows the identifier: the query, then the end of the input. *)
Lemma url_tail_run {R} (t q whole : jsstring) caps
    (k : jsstring -> captures -> option R) :
  is_token t -> is_query q ->
  ∃ caps', caps' !! 4%nat = Some t
           ∧ rmatch url_tail whole (t ++ q) caps k = k [] caps'.
Proof.
  intros Ht Hq. unfold url_tail.
  change (rmatch (RSeq ?g ?r) whole (t ++ q) caps k)
    with (rmatch g whole (t ++ q) caps
            (fun s' caps' => rmatch r whole s' caps' k)).
  rewrite rmatch_group_token by done.
  destruct Hq as [->|(c & rest & -> & Hc & Hrest)].
  - exists (<[4%nat := t]> caps). split; [apply lookup_insert_eq|]. simpl.
    by destruct (k [] _).
  - exists (<[5%nat := consumed (c :: rest) []]> (<[4%nat := t]> caps)).
    split.
    { rewrite lookup_insert_ne by done. apply lookup_insert_eq. }
    cbn [rmatch]. rewrite Hc.
    rewrite star_set_to_end by done.
    by destruct (k [] _).
Qed.

(** What precedes the identifier: each of the twelve prefixes is consumed,
    and the rest of the pattern continues at the identifier. *)
Lemma url_head_run (scheme www host tail : jsstring) caps :
  scheme ∈ schemes -> www ∈ subdomains -> host ∈ hosts ->
  ∃ caps',
    ∀ R (rest : regex) (whole : jsstring)
      (k : jsstring -> captures -> option R) x,
      rmatch rest whole tail caps' k = Some x ->
      rmatch (url_head rest) whole (scheme ++ www ++ host ++ tail) caps k
      = Some x.
Proof.
  intros Hs Hw Hh.
  split_member Hs; split_member Hw; split_member Hh.
  all: eexists; intros R rest whole k x Hk.
  all: unfold url_head; norm_str; cbn.
  all: by rewrite Hk.
Qed.

Lemma search_here (r : regex) (whole s : jsstring) m :
  match_here r whole s = Some m -> search r whole s = Some m.
Proof. intros H. destruct s; cbn [search]; by rewrite H. Qed.

Lemma extract_recognized (token url : jsstring) :
  recognized token url -> extractYouTubeVideoId url = Some token.
Proof.
  intros [scheme www host query Hs Hw Hh Ht Hq].
  destruct (url_head_run scheme www host (token ++ query) ∅ Hs Hw Hh)
    as (caps1 & Hhead).
  set (whole := scheme ++ www ++ host ++ token ++ query) in *.
  destruct (url_tail_run token query whole caps1
              (fun s' caps => Some (<[O := consumed whole s']> caps)) Ht Hq)
    as (caps2 & Hfour & Htail).
  unfold extractYouTubeVideoId, regex_exec.
  rewrite YOUTUBE_URL_REGEX_split.
  rewrite (search_here _ _ _ (<[O := consumed whole []]> caps2)).
  - by rewrite lookup_insert_ne.
  - unfold match_here. rewrite rmatch_bol_start. by apply Hhead.
Qed.

(** The handler's pattern finds its first match where the host ends. *)
Lemma video_id_watch_run (scheme www tail : jsstring) :
  scheme ∈ schemes -> www ∈ subdomains ->
  ∀ (g1 g2 : regex) (whole : jsstring) m,
    rmatch g1 whole tail ∅
      (fun s' caps => Some (<[O := consumed (63 :: 118 :: 61 :: tail) s']> caps))
    = Some m ->
    search (video_id_pattern g1 g2) whole
      (scheme ++ www ++ str "youtube.com/watch?v=" ++ tail) = Some m.
Proof.
  intros Hs Hw. split_member Hs; split_member Hw.
  all: intros g1 g2 whole m Hm.
  all: unfold video_id_pattern, match_here; norm_str; cbn.
  all: by rewrite Hm.
Qed.

Lemma video_id_short_run (scheme www tail : jsstring) :
  scheme ∈ schemes -> www ∈ subdomains ->
  ∀ (g1 g2 : regex) (whole : jsstring) m,
    rmatch g2 whole tail ∅
      (fun s' caps =>
         Some (<[O := consumed (121 :: 111 :: 117 :: 116 :: 117 :: 46 :: 98
                                :: 101 :: 47 :: tail) s']> caps))
    = Some m ->
    search (video_id_pattern g1 g2) whole
      (scheme ++ www ++ str "youtu.be/" ++ tail) = Some m.
Proof.
  intros Hs Hw. split_member Hs; split_member Hw.
  all: intros g1 g2 whole m Hm.
  all: unfold video_id_pattern, match_here; norm_str; cbn.
  all: by rewrite Hm.
Qed.

Lemma or_else_token (t : jsstring) y :
  is_token t -> or_else (Some t) y = Some t.
Proof. intros [Hlen _]. by destruct t. Qed.

Lemma inline_recognized (token url : jsstring) :
  recognized token url -> inlineVideoId url = Some token.
Proof.
  intros [scheme www host query Hs Hw Hh Ht Hq].
  unfold inlineVideoId, regex_exec. rewrite VIDEO_ID_REGEX_split.
  split_member Hh.
  - erewrite video_id_watch_run; [|done|done|by rewrite rmatch_group_token].
    rewrite lookup_insert_ne, lookup_insert_eq by done.
    by apply or_else_token.
  - erewrite video_id_short_run; [|done|done|by rewrite rmatch_group_token].
    rewrite !lookup_insert_ne, lookup_empty, lookup_insert_eq by done.
    done.
Qed.

(** ** The identifier of a recognized URL *)

Example extract_watch :
  extractYouTubeVideoId (str "https://www.youtube.com/watch?v=dQw4w9WgXcQ")
  = Some (str "dQw4w9WgXcQ").
Proof. vm_compute. reflexivity. Qed.

Example extract_short :
  extractYouTubeVideoId (str "https://youtu.be/dQw4w9WgXcQ?t=42")
  = Some (str "dQw4w9WgXcQ").
Proof. vm_compute. reflexivity. Qed.

Example reject_other_site :
  isValidYouTubeUrl (str "https://example.com/video") = false.
Proof. vm_compute. reflexivity. Qed.

Example reject_long_token :
  isValidYouTubeUrl (str "https://youtu.be/dQw4w9WgXcQQ") = false.
Proof. vm_compute. reflexivity. Qed.

(** A line feed in the query is not matched by the dot, and the end anchor
    is not at a line end without the m flag: such a string is not in the
    grammar. *)
Example reject_line_feed_in_query :
  isValidYouTubeUrl (str "https://youtu.be/dQw4w9WgXcQ?t=1" ++ [10] ++ str "x")
  = false.
Proof. vm_compute. reflexivity. Qed.

Lemma is_token_intro (t : jsstring) :
  length t = 11%nat -> forallb id_char t = true -> is_token t.
Proof.
  intros Hlen Hall. split; [done|].
  rewrite forallb_forall in Hall. apply Forall_forall.
  intros c Hc. apply Hall. by apply list_elem_of_In.
Qed.

Lemma is_query_intro (c : Z) (rest : jsstring) :
  amp_or_question c = true -> forallb dot rest = true -> is_query (c :: rest).
Proof.
  intros Hc Hall. apply is_query_cons; [done|].
  rewrite forallb_forall in Hall. apply Forall_forall.
  intros a Ha. apply Hall. by apply list_elem_of_In.
Qed.

(** C5.  For every 11-character token over letters, digits, hyphen and
    underscore, and every URL that carries it in a recognized form (an
    optional http:// or https://, an optional www., the watch host or the
    short-link host, the token, and optional trailing query parameters
    written on one line), [extractYouTubeVideoId] returns exactly that
    token.  Being a function of the URL alone, it gives the same URL the
    same identifier. *)
Theorem extractYouTubeVideoId_returns_token
    (scheme www host token query : jsstring) :
  scheme ∈ schemes -> www ∈ subdomains -> host ∈ hosts ->
  is_token token -> is_query query ->
  extractYouTubeVideoId (scheme ++ www ++ host ++ token ++ query) = Some token.
Proof.
  intros Hs Hw Hh Ht Hq. apply extract_recognized. by constructor.
Qed.

Lemma extractYouTubeVideoId_returns_token_witness :
  str "https://" ∈ schemes ∧ str "www." ∈ subdomains
  ∧ str "youtube.com/watch?v=" ∈ hosts
  ∧ is_token (str "dQw4w9WgXcQ") ∧ is_query (str "&t=42s")
  ∧ extractYouTubeVideoId
      (str "https://" ++ str "www." ++ str "youtube.com/watch?v="
       ++ str "dQw4w9WgXcQ" ++ str "&t=42s")
    = Some (str "dQw4w9WgXcQ").
Proof.
  assert (Hs : str "https://" ∈ schemes) by pick_member.
  assert (Hw : str "www." ∈ subdomains) by pick_member.
  assert (Hh : str "youtube.com/watch?v=" ∈ hosts) by pick_member.
  assert (Ht : is_token (str "dQw4w9WgXcQ"))
    by (apply is_token_intro; reflexivity).
  assert (Hq : is_query (str "&t=42s"))
    by (apply (is_query_intro 38 (str "t=42s")); reflexivity).
  refine (conj Hs (conj Hw (conj Hh (conj Ht (conj Hq _))))).
  exact (extractYouTubeVideoId_returns_token _ _ _ _ _ Hs Hw Hh Ht Hq).
Defined.

(** ** Validation, extraction and the handler's own extraction agree *)

Lemma valid_of_extract (url id : jsstring) :
  extractYouTubeVideoId url = Some id -> isValidYouTubeUrl url = true.
Proof.
  unfold extractYouTubeVideoId, isValidYouTubeUrl, regex_test.
  by destruct (regex_exec YOUTUBE_URL_REGEX url).
Qed.

Lemma extract_of_valid (url : jsstring) :
  isValidYouTubeUrl url = true ->
  ∃ id, is_token id ∧ extractYouTubeVideoId url = Some id
        ∧ inlineVideoId url = Some id.
Proof.
  intros Hv. destruct (valid_recognized url Hv) as [token Hr].
  exists token. split; [by destruct Hr|].
  split; [by apply extract_recognized|by apply inline_recognized].
Qed.

Lemma invalid_iff_no_identifier (url : jsstring) :
  isValidYouTubeUrl url = false ↔ extractYouTubeVideoId url = None.
Proof.
  split.
  - intros Hv. destruct (extractYouTubeVideoId url) as [id|] eqn:E; [|done].
    apply valid_of_extract in E. congruence.
  - intros He. destruct (isValidYouTubeUrl url) eqn:Hv; [|done].
    destruct (extract_of_valid url Hv) as (id & _ & E & _). congruence.
Qed.

(** C10.  [isValidYouTubeUrl url] is true exactly when
    [extractYouTubeVideoId url] is a (non-null) identifier, and on every
    accepted URL the pattern the POST handler applies on its own yields the
    identifier [extractYouTubeVideoId] yields, hence the same cache key. *)
Theorem validation_and_identifiers_agree (url : jsstring) :
  (isValidYouTubeUrl url = true ↔ is_Some (extractYouTubeVideoId url))
  ∧ (isValidYouTubeUrl url = true ->
     inlineVideoId url = extractYouTubeVideoId url
     ∧ getCacheKey <$> inlineVideoId url
       = getCacheKey <$> extractYouTubeVideoId url).
Proof.
  split; [split|].
  - intros Hv. destruct (extract_of_valid url Hv) as (id & _ & E & _).
    rewrite E. by eexists.
  - intros [id E]. by apply valid_of_extract in E.
  - intros Hv. destruct (extract_of_valid url Hv) as (id & _ & E & I).
    by rewrite E, I.
Qed.

Lemma validation_and_identifiers_agree_witness :
  isValidYouTubeUrl (str "https://youtu.be/dQw4w9WgXcQ?v=AAAAAAAAAAA") = true
  ∧ inlineVideoId (str "https://youtu.be/dQw4w9WgXcQ?v=AAAAAAAAAAA")
    = extractYouTubeVideoId (str "https://youtu.be/dQw4w9WgXcQ?v=AAAAAAAAAAA").
Proof.
  assert (Hv : isValidYouTubeUrl
                 (str "https://youtu.be/dQw4w9WgXcQ?v=AAAAAAAAAAA") = true)
    by (vm_compute; reflexivity).
  split; [exact Hv|].
  exact (proj1 (proj2 (validation_and_identifiers_agree _) Hv)).
Defined.

(** ** The command line as sh reads it *)

Example default_config_values :
  default_config
  = {| timeoutMs := 300000; audioFormat := mp3; audioQuality := lowest |}.
Proof. reflexivity. Qed.

Example sample_command :
  buildYtdlpCommand default_config sample_url sample_path
  = str "yt-dlp -x --audio-format mp3 --audio-quality 128 -f bestaudio[ext=mp3]/best --quiet --no-warnings -o '/tmp/viajera_dQw4w9WgXcQ_0001020304050607.mp3' 'https://youtu.be/dQw4w9WgXcQ'".
Proof. vm_compute. reflexivity. Qed.

Example sample_command_tokens :
  shell_tokens (buildYtdlpCommand default_config sample_url sample_path)
  = intended_tokens default_config sample_url sample_path.
Proof. vm_compute. reflexivity. Qed.





(** C2, at an accepted URL that holds single quotes: the URL is put between
    quotes unescaped, so its first quote closes the quoting, sh reads the
    semicolons that follow as command separators and [touch /tmp/pwned] as a
    command of its own.  The output path goes through the replacement and
    stays one word. *)
Theorem buildYtdlpCommand_does_not_escape_url :
  isValidYouTubeUrl injected_url = true
  ∧ buildYtdlpCommand default_config injected_url sample_path
    = str "yt-dlp -x --audio-format mp3 --audio-quality 128 -f bestaudio[ext=mp3]/best --quiet --no-warnings -o '/tmp/viajera_dQw4w9WgXcQ_0001020304050607.mp3' 'https://youtu.be/dQw4w9WgXcQ?x=';touch /tmp/pwned;''"
  ∧ shell_tokens (buildYtdlpCommand default_config injected_url sample_path)
    = take 12 (intended_tokens default_config injected_url sample_path)
      ++ [ Word (str "https://youtu.be/dQw4w9WgXcQ?x="); Active 59;
           Word (str "touch"); Word (str "/tmp/pwned"); Active 59; Word [] ]
  ∧ shell_tokens (buildYtdlpCommand default_config injected_url sample_path)
    ≠ intended_tokens default_config injected_url sample_path.
Proof.
  split; [by vm_compute|]. split; [by vm_compute|].
  split; [by vm_compute|]. by vm_compute.
Qed.

(** ** The extractor *)

Lemma or_default_cons (c : Z) (s d : jsstring) : or_default (c :: s) d = c :: s.
Proof. reflexivity. Qed.

(** C9.  On a URL that [isValidYouTubeUrl] rejects, or from which no
    identifier can be derived, [extractAudio] returns a failure at once:
    nothing is asked of the operating system (no temporary directory, no
    random bytes, no child process; the trace holds the entry into the
    method and nothing else) and the state is untouched. *)
Theorem extractAudio_rejects_before_any_effect (cfg : ExtractorConfig)
    (env : Env) (url : jsstring) (st : State) :
  isValidYouTubeUrl url = false ∨ extractYouTubeVideoId url = None ->
  extractAudio cfg env url st
  = (Returned (failure (str "Invalid YouTube URL format") None), st,
     [EvExtractAudio url]).
Proof.
  intros H. assert (Hv : isValidYouTubeUrl url = false).
  { destruct H as [H|H]; [done|]. by apply invalid_iff_no_identifier. }
  unfold extractAudio, bind, try_catch, emit. rewrite Hv. reflexivity.
Qed.

Lemma extractAudio_rejects_before_any_effect_witness :
  isValidYouTubeUrl (str "https://example.com/video") = false
  ∧ extractAudio default_config sample_env (str "https://example.com/video")
      empty_state
    = (Returned (failure (str "Invalid YouTube URL format") None),
       empty_state, [EvExtractAudio (str "https://example.com/video")]).
Proof.
  assert (Hv : isValidYouTubeUrl (str "https://example.com/video") = false)
    by (vm_compute; reflexivity).
  split; [exact Hv|].
  exact (extractAudio_rejects_before_any_effect _ _ _ _ (or_introl Hv)).
Defined.

(** What [cleanupFile] does, case by case. *)
Lemma cleanupFile_eval (env : Env) (path : jsstring) (st : State) :
  cleanupFile env path st =
  if bool_decide (path ∈ disk st) then
    match env_unlink_error env path with
    | None =>
        (Returned true,
         {| disk := disk st ∖ {[path]};
            tempFilesToCleanup := tempFilesToCleanup st ∖ {[path]};
            children := children st |},
         [ EvCleanupFile path; EvExistsSync path; EvUnlink path;
           EvConsole LogLevel (str "[YouTube Extract] Cleaned up: " ++ path) ])
    | Some _ =>
        (Returned false, st,
         [ EvCleanupFile path; EvExistsSync path; EvUnlink path;
           EvConsole ErrorLevel
             (str "[YouTube Extract] Cleanup error for " ++ path ++ str ":") ])
    end
  else (Returned false, st, [EvCleanupFile path; EvExistsSync path]).
Proof.
  unfold cleanupFile, bind, try_catch, emit, existsSync, unlink,
    registry_delete, console, ret.
  destruct (bool_decide (path ∈ disk st)); [|reflexivity].
  destruct (env_unlink_error env path); reflexivity.
Qed.

(** [cleanupFile] catches what it throws. *)
Lemma cleanupFile_returns (env : Env) (path : jsstring) (st : State) :
  ∃ (deleted : bool) (st' : State) (trace : list Event),
    cleanupFile env path st = (Returned deleted, st', trace).
Proof.
  rewrite cleanupFile_eval.
  destruct (bool_decide (path ∈ disk st));
    [destruct (env_unlink_error env path)|]; by eexists; eexists; eexists.
Qed.

(** C6, as the code has it.  [cleanupFile] never throws.  It returns true
    exactly when the path was on disk and [unlink] did not reject; then the
    path leaves both the disk and the pending-cleanup registry.  In the two
    other cases (the path already absent, or [unlink] rejecting) it returns
    false and the registry is left as it was: a registered path stays
    registered. *)
Theorem cleanupFile_registry (env : Env) (path : jsstring) (st : State) :
  ∃ (deleted : bool) (st' : State) (trace : list Event),
    cleanupFile env path st = (Returned deleted, st', trace)
    ∧ deleted = bool_decide (path ∈ disk st)
                && bool_decide (env_unlink_error env path = None)
    ∧ disk st' = (if deleted then disk st ∖ {[path]} else disk st)
    ∧ tempFilesToCleanup st'
      = (if deleted then tempFilesToCleanup st ∖ {[path]}
         else tempFilesToCleanup st)
    ∧ children st' = children st.
Proof.
  rewrite cleanupFile_eval.
  destruct (bool_decide (path ∈ disk st)).
  - destruct (env_unlink_error env path) as [message|].
    + by exists false, st; eexists.
    + by exists true; eexists; eexists.
  - by exists false, st; eexists.
Qed.

(** C6, the part about the registry as the specification words it: the
    path is registered, the file is already gone; after the call the path
    is still registered. *)
Lemma cleanupFile_absent_path_stays_registered :
  ∃ (st' : State) (trace : list Event),
    cleanupFile sample_env sample_path stale_state
    = (Returned false, st', trace)
    ∧ sample_path ∈ tempFilesToCleanup st'.
Proof.
  rewrite cleanupFile_eval.
  rewrite bool_decide_eq_false_2 by (cbn [disk stale_state]; set_solver).
  exists stale_state. eexists. split; [reflexivity|]. simpl. set_solver.
Qed.

(** The same when [unlink] rejects. *)
Example cleanupFile_failed_unlink_stays_registered :
  let env := with_unlink_error sample_env (fun _ => Some (str "EACCES")) in
  let st := {| disk := {[sample_path]};
               tempFilesToCleanup := {[sample_path]}; children := [] |} in
  ∃ (st' : State) (trace : list Event),
    cleanupFile env sample_path st = (Returned false, st', trace)
    ∧ sample_path ∈ tempFilesToCleanup st' ∧ sample_path ∈ disk st'.
Proof.
  intros env st. rewrite cleanupFile_eval.
  rewrite bool_decide_eq_true_2 by (simpl; set_solver).
  exists st. eexists. split; [reflexivity|]. simpl. set_solver.
Qed.

(** A second call on a path the first one deleted returns false. *)
Lemma cleanupFile_twice (env : Env) (path : jsstring) (st st' : State) trace :
  cleanupFile env path st = (Returned true, st', trace) ->
  ∃ trace', cleanupFile env path st' = (Returned false, st', trace').
Proof.
  rewrite cleanupFile_eval.
  destruct (bool_decide (path ∈ disk st)); [|done].
  destruct (env_unlink_error env path); [done|].
  intros [= <- <-]. rewrite cleanupFile_eval.
  rewrite bool_decide_eq_false_2; [by eexists|]. cbn [disk].
  apply not_elem_of_difference. right. by apply elem_of_singleton.
Qed.

(** ** One extraction, step by step *)

Lemma remove_first_head (x : jsstring) (l : list jsstring) :
  remove_first x (x :: l) = l.
Proof. simpl. by rewrite bool_decide_eq_true_2. Qed.

Ltac mstep :=
  cbv beta iota zeta
    delta [bind try_catch tmpdir randomBytes emit console ret throw lift
           existsSync registry_add spawn child_exit fst snd];
  cbn [app disk tempFilesToCleanup children negb].

(** The timer fires first: the promise rejects, and nothing is sent to the
    child, which stays among the running ones. *)
Lemma executeWithTimeout_timer_first (env : Env) (command : jsstring)
    (timeout : Z) (st : State) :
  settles_first timeout (env_exec env command) = false ->
  executeWithTimeout env command timeout st
  = (Thrown (str "Command execution timed out after " ++ decimal timeout
             ++ str "ms"),
     {| disk := disk st;
        tempFilesToCleanup := tempFilesToCleanup st;
        children := command :: children st |},
     [EvSetTimeout timeout; EvExec command]).
Proof. intros H. unfold executeWithTimeout. mstep. by rewrite H. Qed.

(** The child exits first: the timer is cleared, and the promise resolves
    on exit status 0 and rejects on any other. *)
Lemma executeWithTimeout_child_first (env : Env) (command : jsstring)
    (timeout : Z) (st : State) :
  let run := env_exec env command in
  settles_first timeout run = true ->
  executeWithTimeout env command timeout st
  = (if run_exit run =? 0 then Returned (run_stdout run, run_stderr run)
     else Thrown (str "Command failed: " ++ command ++ [10] ++ run_stderr run),
     {| disk := disk st ∪ run_files run;
        tempFilesToCleanup := tempFilesToCleanup st;
        children := children st |},
     [EvSetTimeout timeout; EvExec command; EvClearTimeout]).
Proof.
  intros run H. unfold executeWithTimeout. fold run. mstep. rewrite H. mstep.
  rewrite remove_first_head. by destruct (run_exit run =? 0).
Qed.

Lemma exceeds_timer_first (timeout : Z) (run : ExecRun) :
  exceeds timeout run -> settles_first timeout run = false.
Proof.
  unfold exceeds, settles_first. destruct (run_time run) as [d|]; [|done].
  intros H. apply orb_false_iff. split; [lia|].
  apply andb_false_iff. left. lia.
Qed.

(** [extractAudio] up to the call of [executeWithTimeout], on a URL with an
    identifier. *)
Lemma extractAudio_unfold (cfg : ExtractorConfig) (env : Env)
    (url id : jsstring) (st : State) :
  extractYouTubeVideoId url = Some id ->
  extractAudio cfg env url st
  = let command := commandFor cfg env url id in
    let path := outputPath cfg env id in
    let start :=
      [ EvExtractAudio url; EvTmpdir; EvRandomBytes 8;
        EvConsole LogLevel
          (str "[YouTube Extract] Starting extraction for: " ++ id);
        EvConsole LogLevel (str "[YouTube Extract] Command: " ++ command) ] in
    match executeWithTimeout env command (timeoutMs cfg) st with
    | (Returned output, st1, t1) =>
        let warned :=
          match snd output with
          | _ :: _ =>
              if negb (includes (snd output) (str "WARNING")) then
                [ EvConsole WarnLevel
                    (str "[YouTube Extract] Warnings during extraction: "
                     ++ snd output) ]
              else []
          | [] => []
          end in
        if bool_decide (path ∈ disk st1) then
          (Returned {| success := true; audioPath := Some path;
                       filename := Some (outputName cfg env id);
                       error := None; videoId := Some id |},
           {| disk := disk st1;
              tempFilesToCleanup := {[path]} ∪ tempFilesToCleanup st1;
              children := children st1 |},
           start ++ t1 ++ warned
           ++ [ EvExistsSync path;
                EvConsole LogLevel
                  (str "[YouTube Extract] Successfully extracted to: "
                   ++ path) ])
        else
          (Returned
             (failure (str "Audio extraction failed: Output file not created")
                (Some id)),
           st1, start ++ t1 ++ warned ++ [EvExistsSync path])
    | (Thrown message, st1, t1) =>
        (Returned
           (failure
              (or_default message (str "Failed to extract audio from YouTube"))
              None),
         st1,
         start ++ t1 ++ [EvConsole ErrorLevel (str "[YouTube Extract] Error:")])
    end.
Proof.
  intros Hid. pose proof (valid_of_extract _ _ Hid) as Hv.
  unfold extractAudio. mstep. rewrite Hv, Hid. mstep. mstep.
  unfold commandFor, outputPath, outputName.
  destruct (executeWithTimeout env _ (timeoutMs cfg) st)
    as [[[output|message] st1] t1]; [|reflexivity].
  mstep. destruct output as [stdout stderr]. mstep.
  destruct stderr as [|c stderr]; mstep.
  - destruct (bool_decide (_ ∈ disk st1)); mstep; rewrite ?app_nil_r;
      reflexivity.
  - destruct (includes _ _); mstep;
      (destruct (bool_decide (_ ∈ disk st1)); mstep; rewrite ?app_nil_r;
       rewrite <- ?app_assoc; reflexivity).
Qed.

Lemma extractAudio_timeout_eval (cfg : ExtractorConfig) (env : Env)
    (url id : jsstring) (st : State) :
  extractYouTubeVideoId url = Some id ->
  settles_first (timeoutMs cfg) (env_exec env (commandFor cfg env url id))
  = false ->
  ∃ trace,
    extractAudio cfg env url st
    = (Returned
         (failure (str "Command execution timed out after "
                   ++ decimal (timeoutMs cfg) ++ str "ms") None),
       {| disk := disk st;
          tempFilesToCleanup := tempFilesToCleanup st;
          children := commandFor cfg env url id :: children st |},
       trace)
    ∧ EvExec (commandFor cfg env url id) ∈ trace.
Proof.
  intros Hid Hrun. rewrite (extractAudio_unfold _ _ _ _ _ Hid).
  cbv zeta. rewrite executeWithTimeout_timer_first by done.
  eexists. split; [reflexivity|]. cbn [app].
  do 6 apply list_elem_of_further. apply list_elem_of_here.
Qed.

(** C3, as the code has it.  When the run of the command outlasts the
    configured timeout, [extractAudio] returns to its caller a failure
    whose error text is "Command execution timed out after <timeout>ms"
    (the result has no error code, the text is all that tells a timeout
    from another failure).  The external invocation is not terminated: the
    timer only rejects the promise, and the child process is left
    running. *)
Theorem timeout_returns_failure_child_not_terminated
    (cfg : ExtractorConfig) (env : Env) (url id : jsstring) (st : State) :
  extractYouTubeVideoId url = Some id ->
  exceeds (timeoutMs cfg) (env_exec env (commandFor cfg env url id)) ->
  ∃ st' trace,
    extractAudio cfg env url st
    = (Returned
         (failure (str "Command execution timed out after "
                   ++ decimal (timeoutMs cfg) ++ str "ms") None),
       st', trace)
    ∧ EvExec (commandFor cfg env url id) ∈ trace
    ∧ children st' = commandFor cfg env url id :: children st
    ∧ disk st' = disk st
    ∧ tempFilesToCleanup st' = tempFilesToCleanup st.
Proof.
  intros Hid Hrun. apply exceeds_timer_first in Hrun.
  destruct (extractAudio_timeout_eval cfg env url id st Hid Hrun)
    as (trace & -> & Hexec).
  by eexists; eexists.
Qed.

Example default_timeout : timeoutMs (makeConfig noOptions) = 300000.
Proof. reflexivity. Qed.

Example zero_timeout_is_default :
  timeoutMs (makeConfig {| opt_timeoutMs := Some 0; opt_audioFormat := None;
                           opt_audioQuality := None |}) = 300000.
Proof. reflexivity. Qed.

Lemma sample_url_id : extractYouTubeVideoId sample_url = Some sample_id.
Proof. vm_compute. reflexivity. Qed.

Lemma timeout_returns_failure_child_not_terminated_witness :
  extractYouTubeVideoId sample_url = Some sample_id
  ∧ exceeds (timeoutMs default_config)
      (env_exec slow_env
         (commandFor default_config slow_env sample_url sample_id))
  ∧ ∃ st' trace,
      extractAudio default_config slow_env sample_url empty_state
      = (Returned
           (failure (str "Command execution timed out after "
                     ++ decimal (timeoutMs default_config) ++ str "ms") None),
         st', trace)
      ∧ EvExec (commandFor default_config slow_env sample_url sample_id)
        ∈ trace
      ∧ children st'
        = commandFor default_config slow_env sample_url sample_id
          :: children empty_state
      ∧ disk st' = disk empty_state
      ∧ tempFilesToCleanup st' = tempFilesToCleanup empty_state.
Proof.
  assert (Hrun : exceeds (timeoutMs default_config)
            (env_exec slow_env
               (commandFor default_config slow_env sample_url sample_id)))
    by reflexivity.
  refine (conj sample_url_id (conj Hrun _)).
  exact (timeout_returns_failure_child_not_terminated default_config slow_env sample_url sample_id
           empty_state sample_url_id Hrun).
Defined.

(** C3 as the specification words it fails on the termination: yt-dlp
    needs 600000 ms, the default timeout of 300000 ms passes,
    [extractAudio] returns its timeout failure, and the child is still
    running. *)
Lemma timeout_leaves_child_running :
  timeoutMs default_config = 300000
  ∧ exceeds (timeoutMs default_config)
      (env_exec slow_env
         (commandFor default_config slow_env sample_url sample_id))
  ∧ ∃ res st' trace,
      extractAudio default_config slow_env sample_url empty_state
      = (Returned res, st', trace)
      ∧ success res = false
      ∧ error res = Some (str "Command execution timed out after 300000ms")
      ∧ commandFor default_config slow_env sample_url sample_id
        ∈ children st'.
Proof.
  split; [reflexivity|]. split; [reflexivity|].
  destruct (extractAudio_timeout_eval default_config slow_env sample_url
              sample_id empty_state sample_url_id eq_refl)
    as (trace & -> & _).
  eexists; eexists; eexists. split; [reflexivity|].
  split; [reflexivity|]. split; [by vm_compute|]. apply list_elem_of_here.
Qed.





(** ** The handler *)

Lemma cacheLookup_eval (env : Env) (id cacheKey : jsstring) (st : State) :
  cacheLookup env id cacheKey st =
  match env_redis_get env cacheKey with
  | Returned (Some (c :: t)) =>
      (Returned (Some (c :: t)), st,
       [ EvRedisGet cacheKey;
         EvConsole LogLevel
           (str "[Process YouTube] Cache hit for video: " ++ id) ])
  | Returned _ => (Returned None, st, [EvRedisGet cacheKey])
  | Thrown _ =>
      (Returned None, st,
       [ EvRedisGet cacheKey;
         EvConsole WarnLevel
           (str "[Process YouTube] Cache lookup failed, proceeding with extraction:") ])
  end.
Proof.
  unfold cacheLookup. mstep.
  destruct (env_redis_get env cacheKey) as [[[|c t]|]|message]; reflexivity.
Qed.

Lemma cacheWrite_eval (env : Env) (id cacheKey transcript : jsstring)
    (st : State) :
  cacheWrite env id cacheKey transcript st =
  (Returned tt, st,
   [ EvRedisSetex cacheKey 86400 transcript;
     match env_redis_setex env cacheKey 86400 transcript with
     | Returned _ =>
         EvConsole LogLevel
           (str "[Process YouTube] Transcription cached for 24h: " ++ id)
     | Thrown _ =>
         EvConsole WarnLevel
           (str "[Process YouTube] Failed to cache transcription:")
     end ]).
Proof.
  unfold cacheWrite. mstep.
  destruct (env_redis_setex env cacheKey 86400 transcript) as [[]|message];
    reflexivity.
Qed.


Lemma cleanupFile_called_once (env : Env) (path : jsstring) (st : State) :
  cleanup_calls path (snd (cleanupFile env path st)) = 1%nat.
Proof.
  rewrite cleanupFile_eval. unfold cleanup_calls.
  destruct (bool_decide (path ∈ disk st));
    [destruct (env_unlink_error env path)|];
    cbn; by rewrite bool_decide_eq_true_2.
Qed.

(** When the call [this.callTranscriptionApi(audioPath)] throws, the
    handler leaves the block at once: [cleanupFile] is not reached. *)
Lemma transcribeAndRespond_call_throws (env : Env) (this : Receiver)
    (id cacheKey path : jsstring) (st st1 : State) message t1 :
  this_callTranscriptionApi this path st = (Thrown message, st1, t1) ->
  transcribeAndRespond env this id cacheKey path st
  = (Thrown message, st1,
     EvConsole LogLevel
       (str "[Process YouTube] Audio extracted, calling transcription API...")
     :: t1).
Proof. intros H. unfold transcribeAndRespond. mstep. by rewrite H. Qed.

(** When the call returns, with a success or with a failure, [cleanupFile]
    runs once, and the response is the one of the transcription result
    whatever the cleanup did. *)
Lemma transcribeAndRespond_call_returns (env : Env) (this : Receiver)
    (id cacheKey path : jsstring) (st st1 : State) result t1 :
  this_callTranscriptionApi this path st = (Returned result, st1, t1) ->
  ∃ (deleted : bool) (st2 : State) (t2 t3 : list Event),
    cleanupFile env path st1 = (Returned deleted, st2, t2)
    ∧ transcribeAndRespond env this id cacheKey path st
      = (Returned (responseFor id cacheKey result), st2,
         EvConsole LogLevel
           (str "[Process YouTube] Audio extracted, calling transcription API...")
         :: t1 ++ t2 ++ t3)
    ∧ cleanup_calls path t2 = 1%nat
    ∧ cleanup_calls path t3 = 0%nat.
Proof.
  intros H. pose proof (cleanupFile_called_once env path st1) as Honce.
  destruct (cleanupFile_returns env path st1) as (deleted & st2 & t2 & Hc).
  rewrite Hc in Honce. cbn [snd] in Honce.
  unfold transcribeAndRespond, responseFor. mstep. rewrite H. mstep.
  rewrite Hc. mstep.
  destruct (negb (tr_success result)).
  - mstep. exists deleted, st2, t2. eexists.
    split; [done|]. split; [by rewrite app_nil_r|]. by split.
  - rewrite cacheWrite_eval. unfold respondOk. mstep.
    exists deleted, st2, t2. eexists.
    split; [done|]. split; [by rewrite app_nil_r|]. split; [done|].
    unfold cleanup_calls. cbn.
    by destruct (env_redis_setex env _ _ _).
Qed.

(** C1, at an ordinary request.  The limiter admits, the cache has no
    entry, yt-dlp writes its file: the extraction succeeds and hands out
    the temporary path.  The handler then evaluates
    [this.callTranscriptionApi(audioPath)] with [this] undefined, which
    throws; control goes to the outer catch block and the response is a
    500.  [cleanupFile] was never entered: the temporary file is still on
    disk and still registered when the handler returns. *)
Theorem POST_leaves_temp_file_when_transcription_call_throws :
  fst (fst (POST sample_env ThisUndefined sample_request empty_state))
  = Returned
      (json (BodyError
               (str "Cannot read properties of undefined (reading 'callTranscriptionApi')")
               None) 500)
  ∧ EvExtractAudio sample_url
    ∈ snd (POST sample_env ThisUndefined sample_request empty_state)
  ∧ cleanup_calls sample_path
      (snd (POST sample_env ThisUndefined sample_request empty_state))
    = 0%nat
  ∧ sample_path
    ∈ disk (snd (fst (POST sample_env ThisUndefined sample_request
                        empty_state)))
  ∧ sample_path
    ∈ tempFilesToCleanup
        (snd (fst (POST sample_env ThisUndefined sample_request
                     empty_state))).
Proof.
  split; [by vm_compute|]. split.
  { apply list_elem_of_In.
    assert (H : existsb
                  (fun e => match e with
                            | EvExtractAudio u => bool_decide (u = sample_url)
                            | _ => false
                            end)
                  (snd (POST sample_env ThisUndefined sample_request
                          empty_state)) = true) by (vm_compute; reflexivity).
    apply existsb_exists in H as (e & He & Hu).
    destruct e; try discriminate. by apply bool_decide_eq_true_1 in Hu as ->. }
  split; [by vm_compute|].
  assert (Hdisk : bool_decide
            (sample_path
             ∈ disk (snd (fst (POST sample_env ThisUndefined sample_request
                                 empty_state)))) = true)
    by (vm_compute; reflexivity).
  assert (Hreg : bool_decide
            (sample_path
             ∈ tempFilesToCleanup
                 (snd (fst (POST sample_env ThisUndefined sample_request
                              empty_state)))) = true)
    by (vm_compute; reflexivity).
  split; by eapply bool_decide_eq_true_1.
Qed.

(** The same request when the module object is the receiver: the object
    has no such member, the call throws all the same. *)
Example POST_with_module_object_as_this :
  let run := POST sample_env (ThisObject None) sample_request empty_state in
  fst (fst run)
  = Returned
      (json (BodyError (str "this.callTranscriptionApi is not a function")
               None) 500)
  ∧ cleanup_calls sample_path (snd run) = 0%nat.
Proof. cbv zeta. split; by vm_compute. Qed.

(** The same request had the call reached the module's function: the
    transcript is returned, [cleanupFile] runs once and the file is gone. *)
Example POST_with_bound_function :
  let run := POST sample_env (bound sample_env) sample_request empty_state in
  fst (fst run)
  = Returned
      (json (BodyOk sample_id (str "Yo soy la viajera") false
               (str "viajera:transcript:dQw4w9WgXcQ") nextStepText) 200)
  ∧ cleanup_calls sample_path (snd run) = 1%nat
  ∧ bool_decide (sample_path ∈ disk (snd (fst run))) = false
  ∧ bool_decide (sample_path ∈ tempFilesToCleanup (snd (fst run))) = false.
Proof. cbv zeta. repeat split; by vm_compute. Qed.

(** ** Errors of the cache store *)



(** The parts of the handler that do not touch the cache do not depend on
    how the cache answers. *)
Lemma extractAudio_with_redis_get cfg env f :
  extractAudio cfg (with_redis_get env f) = extractAudio cfg env.
Proof. reflexivity. Qed.

Lemma extractAudio_with_redis_setex cfg env f :
  extractAudio cfg (with_redis_setex env f) = extractAudio cfg env.
Proof. reflexivity. Qed.

Lemma cleanupFile_with_redis_get env f :
  cleanupFile (with_redis_get env f) = cleanupFile env.
Proof. reflexivity. Qed.

Lemma cleanupFile_with_redis_setex env f :
  cleanupFile (with_redis_setex env f) = cleanupFile env.
Proof. reflexivity. Qed.

Lemma cacheLookup_with_redis_setex env f :
  cacheLookup (with_redis_setex env f) = cacheLookup env.
Proof. reflexivity. Qed.

Lemma cacheWrite_with_redis_get env f :
  cacheWrite (with_redis_get env f) = cacheWrite env.
Proof. reflexivity. Qed.

Lemma transcribeAndRespond_with_redis_get env f :
  transcribeAndRespond (with_redis_get env f) = transcribeAndRespond env.
Proof. reflexivity. Qed.






Lemma bind_trace_l {A B} (m : M A) (f : A -> M B) (st : State) (e : Event) :
  e ∈ snd (m st) -> e ∈ snd (bind m f st).
Proof.
  unfold bind. destruct (m st) as [[[a|err] s1] t1]; [|done].
  destruct (f a s1) as [[r s2] t2]. simpl. intros H.
  apply elem_of_app. by left.
Qed.



Lemma extractAudio_enters (cfg : ExtractorConfig) (env : Env)
    (url : jsstring) (st : State) :
  EvExtractAudio url ∈ snd (extractAudio cfg env url st).
Proof.
  unfold extractAudio. apply bind_trace_l. apply list_elem_of_here.
Qed.




(** The two errors on the sample request, the call bound to the module's
    function: the response is the successful one. *)
Example POST_survives_cache_errors :
  let ok :=
    Returned
      (json (BodyOk sample_id (str "Yo soy la viajera") false
               (str "viajera:transcript:dQw4w9WgXcQ") nextStepText) 200) in
  fst (fst (POST (with_redis_get sample_env
                    (fun _ => Thrown (str "ECONNRESET")))
              (bound sample_env) sample_request empty_state)) = ok
  ∧ fst (fst (POST (with_redis_setex sample_env
                      (fun _ _ _ => Thrown (str "ECONNRESET")))
                (bound sample_env) sample_request empty_state)) = ok.
Proof. cbv zeta. split; by vm_compute. Qed.

(** ** The transcription client *)

Section Retry.
Import GroqClient.
Context (cfg : RetryConfig) (service : nat -> ServiceAnswer)
        (random : nat -> QArith_base.Q).

Lemma delayBeforeJitter_bounded (n : nat) :
  delayBeforeJitter cfg n ≤ maxDelayMs cfg.
Proof. apply Z.le_min_r. Qed.

Lemma delayBeforeJitter_monotone (n : nat) :
  0 ≤ baseDelayMs cfg ->
  delayBeforeJitter cfg n ≤ delayBeforeJitter cfg (S n).
Proof.
  intros Hb. unfold delayBeforeJitter.
  apply Z.min_le_compat_r.
  apply Z.mul_le_mono_nonneg_l; [done|].
  apply Z.pow_le_mono_r; lia.
Qed.

(** One turn of the loop. *)
Lemma attemptsFrom_step (remaining n : nat) :
  attemptsFrom cfg service random (S remaining) n
  = match service n with
    | Created transcription =>
        ({| success := true; text := Some transcription; error := None;
            code := None |},
         [ {| attempt_index := n; attempt_error := None;
              attempt_delay := None; attempt_sleep := None |} ])
    | Threw e =>
        if notRetried (classifyError e) then
          (failed (or_default (default [] (err_message e))
                     (str "Transcription failed: "
                      ++ codeName (classifyError e)))
             (classifyError e),
           [ {| attempt_index := n;
                attempt_error := Some (classifyError e);
                attempt_delay := None; attempt_sleep := None |} ])
        else if bool_decide (remaining = 0%nat) then
          (failed (or_default (default [] (err_message e))
                     (str "Transcription failed after "
                      ++ decimal (Z.of_nat (maxAttempts cfg))
                      ++ str " attempts"))
             (classifyError e),
           [ {| attempt_index := n;
                attempt_error := Some (classifyError e);
                attempt_delay := None; attempt_sleep := None |} ])
        else
          (fst (attemptsFrom cfg service random remaining (S n)),
           {| attempt_index := n;
              attempt_error := Some (classifyError e);
              attempt_delay := Some (delayBeforeJitter cfg n);
              attempt_sleep :=
                Some (getBackoffDelay cfg n (random (2 * n)%nat)
                        (random (2 * n + 1)%nat)) |}
           :: snd (attemptsFrom cfg service random remaining (S n)))
    end.
Proof.
  cbn [attemptsFrom]. destruct (service n) as [transcription|e]; [done|].
  destruct (notRetried (classifyError e)); [done|].
  destruct (bool_decide (remaining = 0%nat)); [done|].
  by destruct (attemptsFrom cfg service random remaining (S n)).
Qed.

Lemma attemptsFrom_length (remaining n : nat) :
  (length (snd (attemptsFrom cfg service random remaining n)) ≤ remaining)%nat.
Proof.
  revert n. induction remaining as [|r IH]; intros n; [done|].
  rewrite attemptsFrom_step.
  destruct (service n) as [transcription|e]; [simpl; lia|].
  destruct (notRetried _); [simpl; lia|].
  destruct (bool_decide _); [simpl; lia|].
  specialize (IH (S n)). simpl. lia.
Qed.


(** An error that is not retried ends the loop at the attempt that met
    it. *)
Lemma attemptsFrom_not_retried (remaining n : nat) (e : CaughtError) :
  service n = Threw e ->
  notRetried (classifyError e) = true ->
  code (fst (attemptsFrom cfg service random (S remaining) n))
  = Some (classifyError e)
  ∧ success (fst (attemptsFrom cfg service random (S remaining) n)) = false
  ∧ length (snd (attemptsFrom cfg service random (S remaining) n)) = 1%nat.
Proof. intros Hs Hp. rewrite attemptsFrom_step. by rewrite Hs, Hp. Qed.

(** Retried errors all the way use every attempt, and the error returned
    is that of the last one. *)
Lemma attemptsFrom_all_retried (remaining n : nat) :
  (∀ k, (k < S remaining)%nat ->
        ∃ e, service (n + k)%nat = Threw e
             ∧ notRetried (classifyError e) = false) ->
  ∃ e, service (n + remaining)%nat = Threw e
       ∧ code (fst (attemptsFrom cfg service random (S remaining) n))
         = Some (classifyError e)
       ∧ success (fst (attemptsFrom cfg service random (S remaining) n))
         = false
       ∧ length (snd (attemptsFrom cfg service random (S remaining) n))
         = S remaining.
Proof.
  revert n. induction remaining as [|r IH]; intros n Hall.
  - destruct (Hall 0%nat) as (e & Hs & Hp); [lia|].
    rewrite Nat.add_0_r in *. exists e.
    rewrite attemptsFrom_step, Hs, Hp. done.
  - destruct (Hall 0%nat) as (e & Hs & Hp); [lia|].
    rewrite Nat.add_0_r in Hs.
    destruct (IH (S n)) as (g & Hg & Hcode & Hfail & Hlen).
    { intros k Hk. replace (S n + k)%nat with (n + S k)%nat by lia.
      apply Hall. lia. }
    exists g. replace (n + S r)%nat with (S n + r)%nat by lia.
    split; [done|].
    rewrite (attemptsFrom_step (S r) n), Hs, Hp.
    rewrite bool_decide_eq_false_2 by done.
    cbn [fst snd length]. by rewrite Hcode, Hfail, Hlen.
Qed.
End Retry.

Example classify_server_down :
  GroqClient.classifyError server_down = GroqClient.SERVER_ERROR.
Proof. reflexivity. Qed.

Example classify_bad_key :
  GroqClient.classifyError bad_key = GroqClient.GROQ_AUTH_ERROR.
Proof. reflexivity. Qed.




(** * Further properties *)

(** ** The URL grammar, both ways *)

(** X1.  [isValidYouTubeUrl] accepts exactly the recognized URLs: an
    optional scheme, an optional www., one of the two hosts, an 11-character
    identifier and an optional one-line query. *)
Theorem isValidYouTubeUrl_accepts_exactly_the_grammar (url : jsstring) :
  isValidYouTubeUrl url = true ↔ ∃ token, recognized token url.
Proof.
  split; [apply valid_recognized|].
  intros [token H]. eapply valid_of_extract, extract_recognized, H.
Qed.

(** X2.  [extractYouTubeVideoId] returns an identifier exactly when the URL
    is a recognized URL around that identifier; what it returns is always
    an 11-character token of the identifier alphabet, and the URL has no
    second reading. *)
Theorem extractYouTubeVideoId_iff_recognized (url id : jsstring) :
  (extractYouTubeVideoId url = Some id ↔ recognized id url)
  ∧ (recognized id url -> is_token id)
  ∧ (recognized id url -> ∀ other, recognized other url -> other = id).
Proof.
  split; [split|split].
  - intros Hid. destruct (valid_recognized url) as [token Ht].
    { by eapply valid_of_extract. }
    pose proof (extract_recognized _ _ Ht) as Hid'.
    rewrite Hid in Hid'. by injection Hid' as ->.
  - apply extract_recognized.
  - by destruct 1.
  - intros H1 other H2. apply extract_recognized in H1, H2. congruence.
Qed.

(** ** The command line *)



(** ** The extractor: results and cleanup *)

(** Whatever the command does, [executeWithTimeout] leaves the registry
    alone and removes nothing from the disk. *)
Lemma executeWithTimeout_state (env : Env) (command : jsstring) (timeout : Z)
    (st : State) :
  tempFilesToCleanup (snd (fst (executeWithTimeout env command timeout st)))
  = tempFilesToCleanup st
  ∧ disk st ⊆ disk (snd (fst (executeWithTimeout env command timeout st))).
Proof.
  destruct (settles_first timeout (env_exec env command)) eqn:Hs.
  - rewrite executeWithTimeout_child_first by done. cbn. set_solver.
  - rewrite executeWithTimeout_timer_first by done. cbn. set_solver.
Qed.

Lemma or_default_nonempty (x d : jsstring) : d ≠ [] -> or_default x d ≠ [].
Proof. by destruct x. Qed.

Lemma outputPath_nonempty (cfg : ExtractorConfig) (env : Env) (id : jsstring) :
  ∃ c t, outputPath cfg env id = c :: t.
Proof.
  unfold outputPath, join. destruct (env_tmpdir env) as [|c t]; cbn; eauto.
Qed.

(** Every call of [extractAudio] returns, and what it returns is one of two
    shapes. *)
Lemma extractAudio_result (cfg : ExtractorConfig) (env : Env)
    (url : jsstring) (st : State) :
  ∃ res st' trace,
    extractAudio cfg env url st = (Returned res, st', trace)
    ∧ disk st ⊆ disk st'
    ∧ if success res then
        ∃ id, extractYouTubeVideoId url = Some id
              ∧ res = {| success := true;
                         audioPath := Some (outputPath cfg env id);
                         filename := Some (outputName cfg env id);
                         error := None; videoId := Some id |}
              ∧ outputPath cfg env id ∈ disk st'
              ∧ tempFilesToCleanup st'
                = {[outputPath cfg env id]} ∪ tempFilesToCleanup st
      else
        audioPath res = None ∧ filename res = None
        ∧ (∃ message, error res = Some message ∧ message ≠ [])
        ∧ tempFilesToCleanup st' = tempFilesToCleanup st.
Proof.
  destruct (isValidYouTubeUrl url) eqn:Hv.
  - destruct (extract_of_valid _ Hv) as (id & _ & Hid & _).
    rewrite (extractAudio_unfold _ _ _ _ _ Hid). cbv zeta.
    destruct (executeWithTimeout_state env (commandFor cfg env url id)
                (timeoutMs cfg) st) as [Hreg Hdisk].
    destruct (executeWithTimeout env _ (timeoutMs cfg) st)
      as [[[output|message] st1] t1]; cbn [fst snd] in Hreg, Hdisk.
    + destruct (bool_decide (outputPath cfg env id ∈ disk st1)) eqn:Hp.
      * eexists; eexists; eexists. split; [reflexivity|].
        cbn [success disk tempFilesToCleanup]. split; [done|].
        exists id. apply bool_decide_eq_true_1 in Hp. by rewrite Hreg.
      * eexists; eexists; eexists. split; [reflexivity|].
        cbn. split; [done|]. split_and!; try done. by eexists.
    + eexists; eexists; eexists. split; [reflexivity|].
      cbn. split; [done|]. split_and!; try done.
      eexists. split; [done|]. by apply or_default_nonempty.
  - exists (failure (str "Invalid YouTube URL format") None), st,
      [EvExtractAudio url].
    split.
    { unfold extractAudio, bind, try_catch, emit. rewrite Hv. reflexivity. }
    cbn. split; [done|]. split_and!; try done. by eexists.
Qed.

(** X4.  [cleanupFile] is idempotent: after a call that deleted the file,
    the path is neither on disk nor in the registry, and a second call
    returns false without calling unlink and without changing anything. *)
Theorem cleanupFile_second_call_is_a_no_op (env : Env) (path : jsstring)
    (st st' : State) (trace : list Event) :
  cleanupFile env path st = (Returned true, st', trace) ->
  (path ∉ disk st') ∧ (path ∉ tempFilesToCleanup st')
  ∧ cleanupFile env path st'
    = (Returned false, st', [EvCleanupFile path; EvExistsSync path]).
Proof.
  rewrite cleanupFile_eval.
  destruct (bool_decide (path ∈ disk st)); [|done].
  destruct (env_unlink_error env path); [done|].
  intros [= <- _]. cbn [disk tempFilesToCleanup].
  split; [set_solver|]. split; [set_solver|].
  rewrite cleanupFile_eval. cbn [disk].
  rewrite bool_decide_eq_false_2; [done|set_solver].
Qed.

Lemma cleanupFile_second_call_is_a_no_op_witness :
  ∃ st' trace,
    cleanupFile sample_env sample_path
      {| disk := {[sample_path]}; tempFilesToCleanup := {[sample_path]};
         children := [] |}
    = (Returned true, st', trace)
    ∧ cleanupFile sample_env sample_path st'
      = (Returned false, st', [EvCleanupFile sample_path;
                               EvExistsSync sample_path]).
Proof.
  eexists; eexists.
  assert (H : cleanupFile sample_env sample_path
                {| disk := {[sample_path]};
                   tempFilesToCleanup := {[sample_path]}; children := [] |}
              = (Returned true,
                 {| disk := {[sample_path]} ∖ {[sample_path]};
                    tempFilesToCleanup := {[sample_path]} ∖ {[sample_path]};
                    children := [] |},
                 [ EvCleanupFile sample_path; EvExistsSync sample_path;
                   EvUnlink sample_path;
                   EvConsole LogLevel
                     (str "[YouTube Extract] Cleaned up: " ++ sample_path) ])).
  { rewrite cleanupFile_eval. cbn [disk].
    rewrite bool_decide_eq_true_2 by set_solver. reflexivity. }
  split; [exact H|].
  exact (proj2 (proj2 (cleanupFile_second_call_is_a_no_op _ _ _ _ _ H))).
Defined.


(** X6.  Extraction followed by cleanup leaves no trace of the temporary
    file: when [extractAudio] succeeded and unlink does not fail on its
    path, [cleanupFile] on that path returns true, the path is gone from
    the disk and from the registry, and the registry holds what it held
    before the extraction (but for that path). *)
Theorem extractAudio_then_cleanupFile (cfg : ExtractorConfig) (env : Env)
    (url path : jsstring) (st st1 : State) (res : ExtractionResult)
    (t1 : list Event) :
  extractAudio cfg env url st = (Returned res, st1, t1) ->
  success res = true ->
  audioPath res = Some path ->
  env_unlink_error env path = None ->
  ∃ st2 t2,
    cleanupFile env path st1 = (Returned true, st2, t2)
    ∧ (path ∉ disk st2)
    ∧ (path ∉ tempFilesToCleanup st2)
    ∧ tempFilesToCleanup st2 = tempFilesToCleanup st ∖ {[path]}
    ∧ children st2 = children st1.
Proof.
  intros Hrun Hs Hp Hu.
  destruct (extractAudio_result cfg env url st)
    as (res' & st' & trace & Hrun' & _ & Hshape).
  rewrite Hrun in Hrun'. injection Hrun' as <- <- <-.
  rewrite Hs in Hshape. destruct Hshape as (id & _ & -> & Hon & Hreg).
  cbn in Hp. injection Hp as <-.
  rewrite cleanupFile_eval, bool_decide_eq_true_2, Hu by done.
  eexists; eexists. split; [reflexivity|].
  cbn [disk tempFilesToCleanup children]. rewrite Hreg.
  repeat split; set_solver.
Qed.

Lemma extractAudio_then_cleanupFile_witness :
  ∃ res st1 t1 st2 t2,
    extractAudio default_config sample_env sample_url empty_state
    = (Returned res, st1, t1)
    ∧ success res = true
    ∧ audioPath res = Some sample_path
    ∧ cleanupFile sample_env sample_path st1 = (Returned true, st2, t2)
    ∧ (sample_path ∉ disk st2)
    ∧ (sample_path ∉ tempFilesToCleanup st2).
Proof.
  destruct (extractAudio_result default_config sample_env sample_url
              empty_state) as (res & st1 & t1 & Hrun & _ & _).
  assert (Hs : match fst (fst (extractAudio default_config sample_env
                                 sample_url empty_state)) with
               | Returned r => success r
               | Thrown _ => false
               end = true) by (vm_compute; reflexivity).
  assert (Hp : match fst (fst (extractAudio default_config sample_env
                                 sample_url empty_state)) with
               | Returned r => audioPath r
               | Thrown _ => None
               end = Some sample_path) by (vm_compute; reflexivity).
  rewrite Hrun in Hs, Hp. cbn [fst] in Hs, Hp.
  destruct (extractAudio_then_cleanupFile default_config sample_env sample_url
              sample_path empty_state st1 res t1 Hrun Hs Hp eq_refl)
    as (st2 & t2 & Hc & Hd & Hr & _).
  exists res, st1, t1, st2, t2. split_and!; assumption.
Defined.
(** ** The handler, case by case *)

Lemma respondOk_eval (id transcript : jsstring) (fromCache : bool)
    (cacheKey : jsstring) (st : State) :
  respondOk id transcript fromCache cacheKey st
  = (Returned (json (BodyOk id transcript fromCache cacheKey nextStepText) 200),
     st, [EvConsole LogLevel (str "[Process YouTube] Pipeline completed")]).
Proof. reflexivity. Qed.

(** After a successful extraction: the call throws and nothing else
    happens, or it returns, [cleanupFile] runs, and a transcript is written
    to the cache. *)
Lemma transcribeAndRespond_eval (env : Env) (this : Receiver)
    (id cacheKey path : jsstring) (st : State) :
  transcribeAndRespond env this id cacheKey path st
  = match this_callTranscriptionApi this path st with
    | (Thrown e, st1, t1) =>
        (Thrown e, st1,
         EvConsole LogLevel
           (str "[Process YouTube] Audio extracted, calling transcription API...")
         :: t1)
    | (Returned result, st1, t1) =>
        (Returned (responseFor id cacheKey result),
         snd (fst (cleanupFile env path st1)),
         EvConsole LogLevel
           (str "[Process YouTube] Audio extracted, calling transcription API...")
         :: t1 ++ snd (cleanupFile env path st1)
         ++ (if negb (tr_success result) then
               [EvConsole ErrorLevel
                  (str "[Process YouTube] Transcription failed:")]
             else
               [ EvRedisSetex cacheKey 86400 (default [] (tr_text result));
                 match env_redis_setex env cacheKey 86400
                         (default [] (tr_text result)) with
                 | Returned _ =>
                     EvConsole LogLevel
                       (str "[Process YouTube] Transcription cached for 24h: "
                        ++ id)
                 | Thrown _ =>
                     EvConsole WarnLevel
                       (str "[Process YouTube] Failed to cache transcription:")
                 end;
                 EvConsole LogLevel
                   (str "[Process YouTube] Pipeline completed") ]))
    end.
Proof.
  unfold transcribeAndRespond. mstep.
  destruct (this_callTranscriptionApi this path st)
    as [[[result|e] st1] t1]; [|reflexivity].
  destruct (cleanupFile_returns env path st1) as (deleted & st2 & t2 & Hc).
  rewrite Hc. unfold responseFor. mstep.
  destruct (tr_success result); mstep.
  - rewrite cacheWrite_eval. unfold respondOk. mstep.
    by rewrite app_nil_r.
  - by rewrite app_nil_r.
Qed.

Lemma extractAndTranscribe_eval (env : Env) (this : Receiver)
    (url id cacheKey : jsstring) (st : State) :
  extractAndTranscribe env this url id cacheKey st
  = match extractAudio (makeConfig noOptions) env url st with
    | (Returned res, st1, t1) =>
        if negb (success res) then
          (Returned
             (json (BodyError
                      (or_default (default [] (error res))
                         (str "Failed to extract audio from YouTube"))
                      None) 500),
           st1,
           EvConsole LogLevel
             (str "[Process YouTube] Cache miss, extracting audio for: " ++ id)
           :: t1
           ++ [EvConsole ErrorLevel
                 (str "[Process YouTube] Audio extraction failed:")])
        else
          match audioPath res with
          | Some (c :: p) =>
              (fst (transcribeAndRespond env this id cacheKey (c :: p) st1),
               EvConsole LogLevel
                 (str "[Process YouTube] Cache miss, extracting audio for: "
                  ++ id)
               :: t1
               ++ snd (transcribeAndRespond env this id cacheKey (c :: p) st1))
          | _ =>
              (Returned
                 (json (BodyError
                          (str "Audio extraction returned no file path") None)
                    500),
               st1,
               EvConsole LogLevel
                 (str "[Process YouTube] Cache miss, extracting audio for: "
                  ++ id)
               :: t1)
          end
    | (Thrown e, st1, t1) =>
        (Thrown e, st1,
         EvConsole LogLevel
           (str "[Process YouTube] Cache miss, extracting audio for: " ++ id)
         :: t1)
    end.
Proof.
  unfold extractAndTranscribe. mstep.
  destruct (extractAudio (makeConfig noOptions) env url st)
    as [[[res|e] st1] t1]; [|reflexivity].
  destruct (success res); mstep.
  - destruct (audioPath res) as [[|c p]|]; mstep; rewrite ?app_nil_r;
      try reflexivity.
    by destruct (transcribeAndRespond env this id cacheKey (c :: p) st1)
      as [[[r|e] st2] t2].
  - reflexivity.
Qed.

(** The whole handler. *)
Lemma POST_eval (env : Env) (this : Receiver) (request : Request)
    (st : State) :
  POST env this request st
  = match env_ratelimit env (getClientIp request) with
    | Thrown e =>
        (Returned
           (json (BodyError
                    (or_default e (str "An unexpected error occurred")) None)
              500),
         st,
         [ EvRateLimit (getClientIp request);
           EvConsole ErrorLevel (str "[Process YouTube] Unexpected error:") ])
    | Returned limit =>
        if negb (rl_success limit) then
          (Returned
             (json (BodyRateLimited
                      (str "Rate limit exceeded. Maximum 10 requests per minute.")
                      (rl_remaining limit) (rl_reset limit)) 429),
           st, [EvRateLimit (getClientIp request)])
        else
          match json_url request with
          | Thrown e =>
              (Returned
                 (json (BodyError
                          (or_default e (str "An unexpected error occurred"))
                          None) 500),
               st,
               [ EvRateLimit (getClientIp request);
                 EvConsole ErrorLevel
                   (str "[Process YouTube] Unexpected error:") ])
          | Returned (JString (c :: t)) =>
              if negb (isValidYouTubeUrl (c :: t)) then
                (Returned
                   (json (BodyError
                      (str "Invalid YouTube URL format. Supported formats: https://www.youtube.com/watch?v=VIDEO_ID or https://youtu.be/VIDEO_ID")
                      None) 400),
                 st, [EvRateLimit (getClientIp request)])
              else
                match inlineVideoId (c :: t) with
                | Some (i :: d) =>
                    match fst (fst (cacheLookup env (i :: d)
                                      (getCacheKey (i :: d)) st)) with
                    | Returned (Some transcript) =>
                        (Returned
                           (json (BodyOk (i :: d) transcript true
                                    (getCacheKey (i :: d)) nextStepText) 200),
                         st,
                         [ EvRateLimit (getClientIp request);
                           EvConsole LogLevel
                             (str "[Process YouTube] Starting pipeline for URL: "
                              ++ c :: t) ]
                         ++ snd (cacheLookup env (i :: d)
                                   (getCacheKey (i :: d)) st)
                         ++ [EvConsole LogLevel
                               (str "[Process YouTube] Pipeline completed")])
                    | _ =>
                        match extractAndTranscribe env this (c :: t) (i :: d)
                                (getCacheKey (i :: d)) st with
                        | (Returned r, st', trace) =>
                            (Returned r, st',
                             [ EvRateLimit (getClientIp request);
                               EvConsole LogLevel
                                 (str "[Process YouTube] Starting pipeline for URL: "
                                  ++ c :: t) ]
                             ++ snd (cacheLookup env (i :: d)
                                       (getCacheKey (i :: d)) st)
                             ++ trace)
                        | (Thrown e, st', trace) =>
                            (Returned
                               (json (BodyError
                                        (or_default e
                                           (str "An unexpected error occurred"))
                                        None) 500),
                             st',
                             [ EvRateLimit (getClientIp request);
                               EvConsole LogLevel
                                 (str "[Process YouTube] Starting pipeline for URL: "
                                  ++ c :: t) ]
                             ++ snd (cacheLookup env (i :: d)
                                       (getCacheKey (i :: d)) st)
                             ++ trace
                             ++ [EvConsole ErrorLevel
                                   (str "[Process YouTube] Unexpected error:")])
                        end
                    end
                | _ =>
                    (Returned
                       (json (BodyError
                                (str "Could not extract video ID from URL")
                                None) 400),
                     st,
                     [ EvRateLimit (getClientIp request);
                       EvConsole LogLevel
                         (str "[Process YouTube] Starting pipeline for URL: "
                          ++ c :: t) ])
                end
          | Returned _ =>
              (Returned (json (BodyError url_required None) 400), st,
               [EvRateLimit (getClientIp request)])
          end
    end.
Proof.
  unfold POST. mstep.
  destruct (env_ratelimit env (getClientIp request)) as [limit|e];
    [|reflexivity].
  destruct (rl_success limit); mstep; [|reflexivity].
  destruct (json_url request) as [[|[|c t]|]|e]; try reflexivity.
  destruct (isValidYouTubeUrl (c :: t)); mstep; [|reflexivity].
  destruct (inlineVideoId (c :: t)) as [[|i d]|]; try reflexivity.
  rewrite cacheLookup_eval.
  destruct (env_redis_get env (getCacheKey (i :: d))) as [[[|a b]|]|e];
    cbn [fst snd app]; unfold respondOk; mstep;
    try reflexivity;
    by destruct (extractAndTranscribe env this (c :: t) (i :: d)
                   (getCacheKey (i :: d)) st) as [[[r|e'] st'] trace].
Qed.
(** ** The handler: refusals *)



(** X8.  An admitted request whose body has no usable URL (no [url]
    member, a member that is not a string, the empty string, or a string
    the pattern rejects) gets status 400 before anything else is done: no
    cache lookup, no extraction, the state untouched. *)
Theorem POST_rejects_an_unusable_url (env : Env) (this : Receiver)
    (request : Request) (st : State) (limit : RateLimitAnswer)
    (value : JsValue) :
  env_ratelimit env (getClientIp request) = Returned limit ->
  rl_success limit = true ->
  json_url request = Returned value ->
  (∀ url, value = JString url -> isValidYouTubeUrl url = false) ->
  ∃ message,
    POST env this request st
    = (Returned (json (BodyError message None) 400), st,
       [EvRateLimit (getClientIp request)]).
Proof.
  intros Hl Hs Hj Hv. rewrite POST_eval, Hl, Hs, Hj. cbn [negb].
  destruct value as [|[|c t]|]; try by eexists.
  rewrite (Hv (c :: t) eq_refl). by eexists.
Qed.

Lemma POST_rejects_an_unusable_url_witness :
  ∃ message,
    POST sample_env ThisUndefined
      {| x_forwarded_for := None; x_real_ip := None;
         json_url := Returned (JString (str "https://example.com/video")) |}
      empty_state
    = (Returned (json (BodyError message None) 400), empty_state,
       [EvRateLimit (str "unknown")]).
Proof.
  refine (POST_rejects_an_unusable_url sample_env ThisUndefined
            {| x_forwarded_for := None; x_real_ip := None;
               json_url := Returned (JString (str "https://example.com/video")) |}
            empty_state
            {| rl_success := true; rl_remaining := 9; rl_reset := 0 |}
            (JString (str "https://example.com/video"))
            eq_refl eq_refl eq_refl _).
  intros url [= <-]. vm_compute. reflexivity.
Defined.

(** ** The handler: answers *)

(** X9.  A cache hit is answered from the cache alone: status 200 with the
    cached transcript, the identifier of the URL, its cache key and
    fromCache = true; no extraction, no transcription, no cache write, the
    state untouched. *)
Theorem POST_cache_hit (env : Env) (this : Receiver) (request : Request)
    (st : State) (limit : RateLimitAnswer) (url id transcript : jsstring) :
  env_ratelimit env (getClientIp request) = Returned limit ->
  rl_success limit = true ->
  json_url request = Returned (JString url) ->
  extractYouTubeVideoId url = Some id ->
  env_redis_get env (getCacheKey id) = Returned (Some transcript) ->
  transcript ≠ [] ->
  POST env this request st
  = (Returned
       (json (BodyOk id transcript true (getCacheKey id) nextStepText) 200),
     st,
     [ EvRateLimit (getClientIp request);
       EvConsole LogLevel
         (str "[Process YouTube] Starting pipeline for URL: " ++ url);
       EvRedisGet (getCacheKey id);
       EvConsole LogLevel (str "[Process YouTube] Cache hit for video: " ++ id);
       EvConsole LogLevel (str "[Process YouTube] Pipeline completed") ]).
Proof.
  intros Hl Hs Hj Hid Hget Hne.
  pose proof (valid_of_extract _ _ Hid) as Hv.
  destruct (extract_of_valid _ Hv) as (id' & [Hlen _] & Hid' & Hinline).
  assert (id' = id) as -> by congruence.
  destruct url as [|c t]; [by vm_compute in Hv|].
  destruct id as [|i d]; [done|].
  destruct transcript as [|a b]; [done|].
  rewrite POST_eval, Hl, Hs, Hj, Hv, Hinline. cbn [negb].
  by rewrite cacheLookup_eval, Hget.
Qed.

Lemma POST_cache_hit_witness :
  POST warm_env ThisUndefined sample_request empty_state
  = (Returned
       (json (BodyOk sample_id (str "Yo soy la viajera") true
                (getCacheKey sample_id) nextStepText) 200),
     empty_state,
     [ EvRateLimit (getClientIp sample_request);
       EvConsole LogLevel
         (str "[Process YouTube] Starting pipeline for URL: " ++ sample_url);
       EvRedisGet (getCacheKey sample_id);
       EvConsole LogLevel
         (str "[Process YouTube] Cache hit for video: " ++ sample_id);
       EvConsole LogLevel (str "[Process YouTube] Pipeline completed") ]).
Proof.
  refine (POST_cache_hit warm_env ThisUndefined sample_request empty_state
            {| rl_success := true; rl_remaining := 9; rl_reset := 0 |}
            sample_url sample_id (str "Yo soy la viajera")
            eq_refl eq_refl eq_refl sample_url_id eq_refl _).
  discriminate.
Defined.
(** ** The handler: what a response tells *)

Ltac trace_ok :=
  repeat first
    [ assumption
    | apply Forall_nil_2
    | apply Forall_cons_2; [reflexivity|]
    | apply Forall_app_2 ].

Lemma executeWithTimeout_trace (env : Env) (command : jsstring) (timeout : Z)
    (st : State) :
  Forall (fun e => after_extraction e = false)
    (snd (executeWithTimeout env command timeout st)).
Proof.
  destruct (settles_first timeout (env_exec env command)) eqn:Hs.
  - rewrite executeWithTimeout_child_first by done. cbn [snd]. trace_ok.
  - rewrite executeWithTimeout_timer_first by done. cbn [snd]. trace_ok.
Qed.

(** The extractor neither cleans up, nor reads the file, nor calls out,
    nor writes the cache. *)
Lemma extractAudio_trace (cfg : ExtractorConfig) (env : Env) (url : jsstring)
    (st : State) :
  Forall (fun e => after_extraction e = false)
    (snd (extractAudio cfg env url st)).
Proof.
  destruct (isValidYouTubeUrl url) eqn:Hv.
  - destruct (extract_of_valid _ Hv) as (id & _ & Hid & _).
    rewrite (extractAudio_unfold _ _ _ _ _ Hid). cbv zeta.
    pose proof (executeWithTimeout_trace env (commandFor cfg env url id)
                  (timeoutMs cfg) st) as Ht.
    destruct (executeWithTimeout env _ (timeoutMs cfg) st)
      as [[[output|message] st1] t1]; cbn [snd] in Ht.
    + assert (Hw : Forall (fun e => after_extraction e = false)
                (match snd output with
                 | _ :: _ =>
                     if negb (includes (snd output) (str "WARNING")) then
                       [ EvConsole WarnLevel
                           (str "[YouTube Extract] Warnings during extraction: "
                            ++ snd output) ]
                     else []
                 | [] => []
                 end)).
      { destruct (snd output); [trace_ok|].
        destruct (negb _); trace_ok. }
      destruct (bool_decide _); cbn [snd]; trace_ok.
    + cbn [snd]. trace_ok.
  - unfold extractAudio, bind, try_catch, emit. rewrite Hv. cbn. trace_ok.
Qed.

Lemma cacheLookup_trace (env : Env) (id cacheKey : jsstring) (st : State) :
  Forall (fun e => after_extraction e = false)
    (snd (cacheLookup env id cacheKey st)).
Proof.
  rewrite cacheLookup_eval.
  destruct (env_redis_get env cacheKey) as [[[|c t]|]|e]; cbn [snd]; trace_ok.
Qed.

Lemma cacheLookup_result (env : Env) (id cacheKey : jsstring) (st : State) :
  ∃ cached trace,
    cacheLookup env id cacheKey st = (Returned cached, st, trace)
    ∧ (∀ transcript, cached = Some transcript ->
         env_redis_get env cacheKey = Returned (Some transcript)
         ∧ transcript ≠ []
         ∧ trace
           = [ EvRedisGet cacheKey;
               EvConsole LogLevel
                 (str "[Process YouTube] Cache hit for video: " ++ id) ]).
Proof.
  rewrite cacheLookup_eval.
  destruct (env_redis_get env cacheKey) as [[[|c t]|]|e];
    eexists; eexists; (split; [reflexivity|]); intros transcript [= <-].
  done.
Qed.

(** What a cache miss leads to: the extraction is entered; a 200 means the
    transcript was written to the cache, anything else is a 500. *)
Lemma extractAndTranscribe_returns (env : Env) (this : Receiver)
    (url id cacheKey : jsstring) (st st' : State) (r : Response)
    (trace : list Event) :
  extractAndTranscribe env this url id cacheKey st = (Returned r, st', trace) ->
  EvExtractAudio url ∈ trace
  ∧ ((∃ message code, r = json (BodyError message code) 500)
     ∨ (∃ transcript,
          r = json (BodyOk id transcript false cacheKey nextStepText) 200
          ∧ EvRedisSetex cacheKey 86400 transcript ∈ trace)).
Proof.
  rewrite extractAndTranscribe_eval.
  pose proof (extractAudio_enters (makeConfig noOptions) env url st) as Hin.
  destruct (extractAudio (makeConfig noOptions) env url st)
    as [[[res|e] st1] t1]; [|done]. cbn [snd] in Hin.
  assert (Hin' : ∀ rest c, EvExtractAudio url ∈ c :: t1 ++ rest).
  { intros rest c. apply elem_of_cons. right. apply elem_of_app. by left. }
  destruct (success res); cbn [negb].
  - destruct (audioPath res) as [[|c p]|].
    + intros [= <- <- <-]. split; [|by left; eexists; eexists].
      rewrite <- (app_nil_r t1). apply Hin'.
    + rewrite transcribeAndRespond_eval.
      destruct (this_callTranscriptionApi this (c :: p) st1)
        as [[[result|e] st2] t2]; [|done].
      cbn [fst snd]. intros [= <- <- <-]. split; [apply Hin'|].
      unfold responseFor. destruct (tr_success result); cbn [negb].
      * right. eexists. split; [reflexivity|].
        apply elem_of_cons. right. apply elem_of_app. right.
        apply elem_of_cons. right. apply elem_of_app. right.
        apply elem_of_app. right. apply list_elem_of_here.
      * left. by eexists; eexists.
    + intros [= <- <- <-]. split; [|by left; eexists; eexists].
      rewrite <- (app_nil_r t1). apply Hin'.
  - intros [= <- <- <-]. split; [apply Hin'|]. left. by eexists; eexists.
Qed.

(** X10.  The handler always answers: it never throws, the rate limiter is
    the first thing it consults, the status is 200 exactly for a success
    body, 429 exactly for a rate-limit body and 400 or 500 for an error
    body, and a 400 or a 429 leaves the state as it was. *)
Theorem POST_always_answers (env : Env) (this : Receiver) (request : Request)
    (st : State) :
  ∃ r st' trace,
    POST env this request st = (Returned r, st', trace)
    ∧ head trace = Some (EvRateLimit (getClientIp request))
    ∧ match body r with
      | BodyOk _ _ _ _ _ => status r = 200
      | BodyRateLimited _ _ _ => status r = 429
      | BodyError _ _ => status r = 400 ∨ status r = 500
      end
    ∧ (status r = 400 ∨ status r = 429 -> st' = st).
Proof.
  rewrite POST_eval.
  destruct (env_ratelimit env (getClientIp request)) as [limit|e];
    [|by eexists; eexists; eexists; split_and!; [done|done|right|done]].
  destruct (rl_success limit); cbn [negb];
    [|by eexists; eexists; eexists; split_and!].
  destruct (json_url request) as [[|[|c t]|]|e];
    try (by eexists; eexists; eexists; split_and!; [done|done|left|done]);
    [|by eexists; eexists; eexists; split_and!; [done|done|right|done]].
  destruct (isValidYouTubeUrl (c :: t)); cbn [negb];
    [|by eexists; eexists; eexists; split_and!; [done|done|left|done]].
  destruct (inlineVideoId (c :: t)) as [[|i d]|];
    try (by eexists; eexists; eexists; split_and!; [done|done|left|done]).
  assert (Hmiss :
    ∃ r st' trace,
      match extractAndTranscribe env this (c :: t) (i :: d)
              (getCacheKey (i :: d)) st with
      | (Returned r, st', trace) =>
          (Returned r, st',
           [ EvRateLimit (getClientIp request);
             EvConsole LogLevel
               (str "[Process YouTube] Starting pipeline for URL: " ++ c :: t) ]
           ++ snd (cacheLookup env (i :: d) (getCacheKey (i :: d)) st)
           ++ trace)
      | (Thrown e, st', trace) =>
          (Returned
             (json (BodyError
                      (or_default e (str "An unexpected error occurred"))
                      None) 500),
           st',
           [ EvRateLimit (getClientIp request);
             EvConsole LogLevel
               (str "[Process YouTube] Starting pipeline for URL: " ++ c :: t) ]
           ++ snd (cacheLookup env (i :: d) (getCacheKey (i :: d)) st)
           ++ trace
           ++ [EvConsole ErrorLevel (str "[Process YouTube] Unexpected error:")])
      end = (Returned r, st', trace)
      ∧ head trace = Some (EvRateLimit (getClientIp request))
      ∧ match body r with
        | BodyOk _ _ _ _ _ => status r = 200
        | BodyRateLimited _ _ _ => status r = 429
        | BodyError _ _ => status r = 400 ∨ status r = 500
        end
      ∧ (status r = 400 ∨ status r = 429 -> st' = st)).
  { destruct (extractAndTranscribe env this (c :: t) (i :: d)
                (getCacheKey (i :: d)) st) as [[[r|e] st'] trace] eqn:Hrun.
    - eexists; eexists; eexists. split; [reflexivity|]. split; [done|].
      apply extractAndTranscribe_returns in Hrun
        as [_ [(m & code & ->)|(transcript & -> & _)]]; cbn.
      + split; [by right|]. by intros [|].
      + split; [done|]. by intros [|].
    - eexists; eexists; eexists. split; [reflexivity|]. split; [done|].
      cbn. split; [by right|]. by intros [|]. }
  destruct (fst (fst (cacheLookup env (i :: d) (getCacheKey (i :: d)) st)))
    as [[transcript|]|e]; try exact Hmiss.
  by eexists; eexists; eexists; split_and!.
Qed.


(** ** The handler as it is written *)

Lemma this_without_member_throws (this : Receiver) (path : jsstring)
    (st : State) :
  this = ThisUndefined ∨ this = ThisObject None ->
  ∃ message, this_callTranscriptionApi this path st = (Thrown message, st, []).
Proof. intros [->| ->]; by eexists. Qed.

(** X12.  In the handler as written, [this] is undefined (or the module
    object, which has no [callTranscriptionApi] member), so the call on
    [this] throws for every request that reaches it.  Hence, for every
    request: the handler still answers; it never enters [cleanupFile],
    never reads the extracted file, never calls the transcription endpoint
    and never writes the cache; a 200 can only come from the cache; and
    neither the disk nor the registry of temporary files ever shrinks. *)
Theorem POST_as_written_stops_at_the_transcription_call (env : Env)
    (this : Receiver) (request : Request) (st : State) :
  this = ThisUndefined ∨ this = ThisObject None ->
  ∃ r st' trace,
    POST env this request st = (Returned r, st', trace)
    ∧ Forall (fun e => after_extraction e = false) trace
    ∧ (status r = 200 ->
       ∃ id transcript,
         r = json (BodyOk id transcript true (getCacheKey id) nextStepText) 200
         ∧ st' = st)
    ∧ tempFilesToCleanup st ⊆ tempFilesToCleanup st'
    ∧ disk st ⊆ disk st'.
Proof.
  intros Hthis. rewrite POST_eval.
  destruct (env_ratelimit env (getClientIp request)) as [limit|e];
    [|by eexists; eexists; eexists; split_and!; [done|trace_ok|done|done|done]].
  destruct (rl_success limit); cbn [negb];
    [|by eexists; eexists; eexists; split_and!; [done|trace_ok|done|done|done]].
  destruct (json_url request) as [[|[|c t]|]|e];
    try (by eexists; eexists; eexists;
            split_and!; [done|trace_ok|done|done|done]).
  destruct (isValidYouTubeUrl (c :: t)); cbn [negb];
    [|by eexists; eexists; eexists; split_and!; [done|trace_ok|done|done|done]].
  destruct (inlineVideoId (c :: t)) as [[|i d]|];
    try (by eexists; eexists; eexists;
            split_and!; [done|trace_ok|done|done|done]).
  pose proof (cacheLookup_trace env (i :: d) (getCacheKey (i :: d)) st) as Hlt.
  assert (Hmiss :
    ∃ r st' trace,
      match extractAndTranscribe env this (c :: t) (i :: d)
              (getCacheKey (i :: d)) st with
      | (Returned r, st', trace) =>
          (Returned r, st',
           [ EvRateLimit (getClientIp request);
             EvConsole LogLevel
               (str "[Process YouTube] Starting pipeline for URL: " ++ c :: t) ]
           ++ snd (cacheLookup env (i :: d) (getCacheKey (i :: d)) st)
           ++ trace)
      | (Thrown e, st', trace) =>
          (Returned
             (json (BodyError
                      (or_default e (str "An unexpected error occurred"))
                      None) 500),
           st',
           [ EvRateLimit (getClientIp request);
             EvConsole LogLevel
               (str "[Process YouTube] Starting pipeline for URL: " ++ c :: t) ]
           ++ snd (cacheLookup env (i :: d) (getCacheKey (i :: d)) st)
           ++ trace
           ++ [EvConsole ErrorLevel (str "[Process YouTube] Unexpected error:")])
      end = (Returned r, st', trace)
      ∧ Forall (fun e => after_extraction e = false) trace
      ∧ (status r = 200 ->
         ∃ id transcript,
           r = json (BodyOk id transcript true (getCacheKey id) nextStepText)
                 200
           ∧ st' = st)
      ∧ tempFilesToCleanup st ⊆ tempFilesToCleanup st'
      ∧ disk st ⊆ disk st').
  { rewrite extractAndTranscribe_eval.
    pose proof (extractAudio_trace (makeConfig noOptions) env (c :: t) st)
      as Het.
    destruct (extractAudio_result (makeConfig noOptions) env (c :: t) st)
      as (res & st1 & t1 & Hrun & Hdisk & Hshape).
    rewrite Hrun in *. cbn [snd] in Het.
    destruct (success res); cbn [negb].
    - destruct Hshape as (id & _ & -> & _ & Hreg). cbn [audioPath].
      destruct (outputPath_nonempty (makeConfig noOptions) env id)
        as (a & p & Hp).
      rewrite Hp in *. rewrite transcribeAndRespond_eval.
      destruct (this_without_member_throws this (a :: p) st1 Hthis)
        as [message ->]. cbn [fst snd].
      eexists; eexists; eexists. split; [reflexivity|].
      split_and!; [trace_ok|done| |done].
      rewrite Hreg. set_solver.
    - destruct Hshape as (_ & _ & _ & Hreg).
      eexists; eexists; eexists. split; [reflexivity|].
      split_and!; [trace_ok|done| |done]. by rewrite Hreg. }
  destruct (cacheLookup_result env (i :: d) (getCacheKey (i :: d)) st)
    as (cached & tl & Hl & Hhit).
  rewrite Hl in *. cbn [fst snd] in *.
  destruct cached as [transcript|]; [|exact Hmiss].
  eexists; eexists; eexists. split; [reflexivity|].
  split_and!; [trace_ok| |done|done].
  intros _. by eexists; eexists.
Qed.

Lemma POST_as_written_stops_at_the_transcription_call_witness :
  ∃ r st' trace,
    POST sample_env ThisUndefined sample_request empty_state
    = (Returned r, st', trace)
    ∧ Forall (fun e => after_extraction e = false) trace
    ∧ tempFilesToCleanup empty_state ⊆ tempFilesToCleanup st'.
Proof.
  destruct (POST_as_written_stops_at_the_transcription_call sample_env
              ThisUndefined sample_request empty_state (or_introl eq_refl))
    as (r & st' & trace & H1 & H2 & _ & H3 & _).
  exists r, st', trace. split_and!; assumption.
Defined.
(** ** The transcription call and the cleanup after it *)





(** ** Cache keys *)

Lemma getCacheKey_inj (a b : jsstring) : getCacheKey a = getCacheKey b -> a = b.
Proof. unfold getCacheKey. apply app_inv_head. Qed.

(** X15.  Two accepted URLs share a cache entry exactly when they name the
    same video: the key the handler computes from its own pattern is the
    same for both if and only if [extractYouTubeVideoId] gives the same
    identifier for both.  The identifier can be read back from the key. *)
Theorem cache_entry_shared_iff_same_video (url1 url2 : jsstring) :
  isValidYouTubeUrl url1 = true ->
  isValidYouTubeUrl url2 = true ->
  (getCacheKey <$> inlineVideoId url1 = getCacheKey <$> inlineVideoId url2
   ↔ extractYouTubeVideoId url1 = extractYouTubeVideoId url2)
  ∧ strip_prefix (str "viajera:transcript:") <$>
      (getCacheKey <$> inlineVideoId url1)
    = Some (extractYouTubeVideoId url1).
Proof.
  intros H1 H2.
  destruct (extract_of_valid _ H1) as (id1 & _ & -> & ->).
  destruct (extract_of_valid _ H2) as (id2 & _ & -> & ->).
  cbn [fmap option_fmap option_map]. split.
  - split; [|congruence]. intros H. f_equal. apply getCacheKey_inj.
    by apply (inj Some) in H.
  - unfold getCacheKey. by rewrite strip_prefix_app.
Qed.

Lemma cache_entry_shared_iff_same_video_witness :
  getCacheKey <$> inlineVideoId (str "https://youtu.be/dQw4w9WgXcQ")
  = getCacheKey <$>
      inlineVideoId (str "http://www.youtube.com/watch?v=dQw4w9WgXcQ&t=42s").
Proof.
  apply (cache_entry_shared_iff_same_video
           (str "https://youtu.be/dQw4w9WgXcQ")
           (str "http://www.youtube.com/watch?v=dQw4w9WgXcQ&t=42s")).
  - vm_compute. reflexivity.
  - vm_compute. reflexivity.
  - vm_compute. reflexivity.
Defined.
(** ** The identity given to the rate limiter *)

Lemma before_comma_app (a tail : jsstring) :
  Forall (fun c => c ≠ 44) a ->
  before_comma (a ++ tail) = a ++ before_comma tail.
Proof.
  induction 1 as [|c a Hc _ IH]; [done|]. cbn [app before_comma].
  destruct (Z.eqb_spec c 44); [done|]. by rewrite IH.
Qed.

Lemma trim_start_blank (pre s : jsstring) :
  Forall (fun c => is_js_space c = true) pre ->
  trim_start (pre ++ s) = trim_start s.
Proof.
  induction 1 as [|c pre Hc _ IH]; [done|].
  cbn [app trim_start]. by rewrite Hc.
Qed.

Lemma trim_start_solid (c : Z) (s : jsstring) :
  is_js_space c = false -> trim_start (c :: s) = c :: s.
Proof. intros H. cbn [trim_start]. by rewrite H. Qed.

Lemma trim_blank_around (pre word post : jsstring) :
  Forall (fun c => is_js_space c = true) pre ->
  Forall (fun c => is_js_space c = true) post ->
  Forall (fun c => is_js_space c = false) word ->
  trim (pre ++ word ++ post) = word.
Proof.
  intros Hpre Hpost Hword. unfold trim. rewrite trim_start_blank by done.
  destruct word as [|c word].
  - cbn [app]. assert (Hall : ∀ l, Forall (fun c => is_js_space c = true) l ->
                                 trim_start l = []).
    { induction 1 as [|a l Ha _ IH]; [done|].
      cbn [trim_start]. by rewrite Ha. }
    rewrite (Hall post) by done. done.
  - cbn [app]. rewrite trim_start_solid by by inversion Hword.
    change (c :: word ++ post) with ((c :: word) ++ post).
    rewrite rev_app_distr, trim_start_blank by by apply Forall_rev.
    assert (Hlast : ∃ z l, rev (c :: word) = z :: l ∧ is_js_space z = false).
    { destruct (rev (c :: word)) as [|z l] eqn:Hr.
      - apply (f_equal (@length Z)) in Hr. rewrite length_rev in Hr. done.
      - exists z, l. split; [done|].
        assert (Hin : z ∈ rev (c :: word)) by (rewrite Hr; apply list_elem_of_here).
        rewrite list_elem_of_In, <- in_rev, <- list_elem_of_In in Hin.
        by apply (proj1 (Forall_forall _ _) Hword). }
    destruct Hlast as (z & l & Hr & Hz).
    rewrite Hr, trim_start_solid, <- Hr by done. apply rev_involutive.
Qed.

(** X16.  Behind a proxy, the identity given to the rate limiter is the
    first address of the x-forwarded-for header, without the blanks around
    it: for a header that starts with blanks, an address (non-empty, with
    no blank and no comma in it), blanks, and then ends or goes on with a
    comma, [getClientIp] returns that address, whatever x-real-ip says. *)
Theorem getClientIp_first_forwarded_address (request : Request)
    (pre address post tail : jsstring) :
  x_forwarded_for request = Some (pre ++ address ++ post ++ tail) ->
  Forall (fun c => is_js_space c = true) pre ->
  Forall (fun c => is_js_space c = true) post ->
  Forall (fun c => is_js_space c = false ∧ c ≠ 44) address ->
  address ≠ [] ->
  tail = [] ∨ (∃ rest, tail = 44 :: rest) ->
  getClientIp request = address.
Proof.
  intros Hh Hpre Hpost Haddr Hne Htail. unfold getClientIp. rewrite Hh.
  assert (Hcomma : ∀ l, Forall (fun c => is_js_space c = true) l ->
                        Forall (fun c => c ≠ 44) l).
  { intros l Hl. eapply Forall_impl; [exact Hl|]. by intros c Hc ->. }
  assert (Hcut : before_comma (pre ++ address ++ post ++ tail)
                 = pre ++ address ++ post).
  { rewrite !before_comma_app.
    - destruct Htail as [->|[rest ->]]; cbn [before_comma];
        by rewrite ?Z.eqb_refl, ?app_nil_r.
    - by apply Hcomma.
    - eapply Forall_impl; [exact Haddr|]. by intros c [_ ?].
    - by apply Hcomma. }
  rewrite Hcut, trim_blank_around; try done.
  - by destruct address.
  - eapply Forall_impl; [exact Haddr|]. by intros c [? _].
Qed.

Lemma getClientIp_first_forwarded_address_witness :
  getClientIp
    {| x_forwarded_for := Some (str " " ++ str "203.0.113.7" ++ str " "
                                ++ str ", 10.0.0.1");
       x_real_ip := Some (str "198.51.100.4");
       json_url := Returned JUndefined |}
  = str "203.0.113.7".
Proof.
  apply (getClientIp_first_forwarded_address _ (str " ") (str "203.0.113.7")
           (str " ") (str ", 10.0.0.1")).
  - reflexivity.
  - by repeat constructor.
  - by repeat constructor.
  - by repeat constructor.
  - discriminate.
  - right. by eexists.
Defined.
(** ** The transcription client: backoff, classification, recovery *)

Section Backoff.
Import GroqClient.

Lemma delayBeforeJitter_nonneg (cfg : RetryConfig) (n : nat) :
  0 ≤ baseDelayMs cfg -> 0 ≤ maxDelayMs cfg -> 0 ≤ delayBeforeJitter cfg n.
Proof.
  intros Hb Hm. unfold delayBeforeJitter. apply Z.min_glb; [|done].
  apply Z.mul_nonneg_nonneg; [done|]. apply Z.pow_nonneg. lia.
Qed.

(** X17.  The jitter of [getBackoffDelay] stays within a fifth of the
    delay: for a draw of [Math.random] between 0 and 1 the value returned
    lies between 4/5 and 6/5 of min(baseDelayMs * 2^attempt, maxDelayMs),
    whatever the second draw.  So a sleep can exceed maxDelayMs, by at
    most a fifth.  (Computed on rationals.) *)
Theorem getBackoffDelay_stays_within_a_fifth (cfg : RetryConfig)
    (attempt : nat) (random1 random2 : QArith_base.Q) :
  0 ≤ baseDelayMs cfg ->
  0 ≤ maxDelayMs cfg ->
  QArith_base.Qle (QArith_base.Qmake 0 1) random1 ->
  QArith_base.Qle random1 (QArith_base.Qmake 1 1) ->
  QArith_base.Qle
    (QArith_base.Qmult (QArith_base.Qmake 4 5)
       (QArith_base.inject_Z (delayBeforeJitter cfg attempt)))
    (getBackoffDelay cfg attempt random1 random2)
  ∧ QArith_base.Qle
      (getBackoffDelay cfg attempt random1 random2)
      (QArith_base.Qmult (QArith_base.Qmake 6 5)
         (QArith_base.inject_Z (delayBeforeJitter cfg attempt)))
  ∧ QArith_base.Qle
      (getBackoffDelay cfg attempt random1 random2)
      (QArith_base.Qmult (QArith_base.Qmake 6 5)
         (QArith_base.inject_Z (maxDelayMs cfg))).
Proof.
  intros Hb Hm H0 H1.
  pose proof (delayBeforeJitter_nonneg cfg attempt Hb Hm) as Hd.
  pose proof (delayBeforeJitter_bounded cfg attempt) as Hcap.
  unfold getBackoffDelay.
  set (d := delayBeforeJitter cfg attempt) in *.
  destruct random1 as [n m].
  unfold QArith_base.Qle in H0, H1. cbn in H0, H1.
  destruct (QArith_base.Qlt_le_dec _ _);
    unfold QArith_base.Qle, QArith_base.Qmult, QArith_base.Qplus,
      QArith_base.Qopp, QArith_base.inject_Z;
    cbn [QArith_base.Qnum QArith_base.Qden]; split_and!; nia.
Qed.

Lemma getBackoffDelay_stays_within_a_fifth_witness :
  QArith_base.Qle
    (getBackoffDelay retryConfig 1 (QArith_base.Qmake 1 2)
       (QArith_base.Qmake 3 4))
    (QArith_base.Qmult (QArith_base.Qmake 6 5)
       (QArith_base.inject_Z (delayBeforeJitter retryConfig 1))).
Proof.
  refine (proj1 (proj2 (getBackoffDelay_stays_within_a_fifth retryConfig 1
                          (QArith_base.Qmake 1 2) (QArith_base.Qmake 3 4)
                          _ _ _ _))).
  - by vm_compute.
  - by vm_compute.
  - by vm_compute.
  - by vm_compute.
Defined.

(** X18.  The backoff before jitter never shrinks from one attempt to the
    next: it is baseDelayMs * 2^attempt as long as that is at most
    maxDelayMs, and maxDelayMs from the first attempt on at which the
    doubling reaches it. *)
Theorem delayBeforeJitter_doubles_up_to_the_cap (cfg : RetryConfig)
    (n : nat) :
  0 ≤ baseDelayMs cfg ->
  delayBeforeJitter cfg n ≤ delayBeforeJitter cfg (S n)
  ∧ (baseDelayMs cfg * 2 ^ Z.of_nat n ≤ maxDelayMs cfg ->
     delayBeforeJitter cfg n = baseDelayMs cfg * 2 ^ Z.of_nat n)
  ∧ (maxDelayMs cfg ≤ baseDelayMs cfg * 2 ^ Z.of_nat n ->
     ∀ m, (n ≤ m)%nat -> delayBeforeJitter cfg m = maxDelayMs cfg).
Proof.
  intros Hb. split; [by apply delayBeforeJitter_monotone|].
  unfold delayBeforeJitter. split; [lia|].
  intros Hcap m Hm.
  assert (2 ^ Z.of_nat n ≤ 2 ^ Z.of_nat m) by (apply Z.pow_le_mono_r; lia).
  nia.
Qed.

Lemma delayBeforeJitter_doubles_up_to_the_cap_witness :
  delayBeforeJitter retryConfig 3 ≤ delayBeforeJitter retryConfig 4
  ∧ delayBeforeJitter retryConfig 3 = 8000
  ∧ delayBeforeJitter retryConfig 4 = 10000.
Proof.
  assert (Hb : 0 ≤ baseDelayMs retryConfig) by by vm_compute.
  destruct (delayBeforeJitter_doubles_up_to_the_cap retryConfig 3 Hb)
    as (Hmono & Hbelow & _).
  destruct (delayBeforeJitter_doubles_up_to_the_cap retryConfig 4 Hb)
    as (_ & _ & Hcap).
  split; [exact Hmono|]. split.
  - rewrite Hbelow; [reflexivity|by vm_compute].
  - apply Hcap; [by vm_compute|lia].
Defined.

(** X19.  Which errors stop the retries.  An error is not retried exactly
    when it is an API error of the SDK with status 401, 403 or 413, or an
    API error whose status is neither 429 nor 500 and above and whose
    message mentions "unsupported" or "format".  So no error that is not an
    API error (a network error, a timeout) ever stops the retries, and the
    status wins over the message: a 429 or a 5xx is retried whatever its
    message says. *)
Theorem retries_stop_only_on_errors_of_the_request (e : CaughtError) :
  (notRetried (classifyError e) = true ↔
   isAPIError e = true
   ∧ (err_status e = Some 401 ∨ err_status e = Some 403
      ∨ err_status e = Some 413
      ∨ ((∀ s, err_status e = Some s -> s ≠ 429 ∧ s < 500)
         ∧ (messageIncludes e (str "unsupported") = true
            ∨ messageIncludes e (str "format") = true))))
  ∧ (isAPIError e = false -> notRetried (classifyError e) = false)
  ∧ (isAPIError e = true -> err_status e = Some 429 ->
     classifyError e = RATE_LIMIT)
  ∧ (∀ s, isAPIError e = true -> err_status e = Some s -> 500 ≤ s ->
          classifyError e = SERVER_ERROR).
Proof.
  unfold classifyError, statusIs.
  destruct (bool_decide (err_name e = Some (str "TimeoutError"))
            || bool_decide (err_code e = Some (str "ECONNABORTED")));
    destruct (isAPIError e); destruct (err_status e) as [s|];
    destruct (messageIncludes e (str "unsupported"));
    destruct (messageIncludes e (str "format"));
    repeat match goal with
           | |- context [Z.eqb ?a ?b] => destruct (Z.eqb_spec a b); subst
           | |- context [Z.leb ?a ?b] => destruct (Z.leb_spec a b)
           end;
    cbn [orb andb negb notRetried];
    (split_and!;
     [ split;
       [ intros ?; first [done | split; [done|]; naive_solver lia]
       | intros [? [?|[?|[?|[Hs [?|?]]]]]]; simplify_eq; try done;
         try (destruct (Hs _ eq_refl) as [? ?]; lia) ]
     | done
     | intros; simplify_eq; first [done | lia]
     | intros; simplify_eq; first [done | lia] ]).
Qed.

End Backoff.
Section Recovery.
Import GroqClient.

Lemma attemptsFrom_recovers (cfg : RetryConfig)
    (service : nat -> ServiceAnswer) (random : nat -> QArith_base.Q)
    (transcription : jsstring) (k : nat) :
  ∀ remaining n,
    (k < remaining)%nat ->
    service (n + k)%nat = Created transcription ->
    (∀ j, (j < k)%nat ->
          ∃ e, service (n + j)%nat = Threw e
               ∧ notRetried (classifyError e) = false) ->
    fst (attemptsFrom cfg service random remaining n)
    = {| success := true; text := Some transcription; error := None;
         code := None |}
    ∧ map attempt_delay (snd (attemptsFrom cfg service random remaining n))
      = map (fun j => Some (delayBeforeJitter cfg j)) (seq n k) ++ [None].
Proof.
  induction k as [|k IH]; intros remaining n Hk Hok Hbad.
  - destruct remaining as [|r]; [lia|].
    rewrite attemptsFrom_step. rewrite Nat.add_0_r in Hok. by rewrite Hok.
  - destruct remaining as [|r]; [lia|].
    destruct (Hbad 0%nat) as (e & He & Hretry); [lia|].
    rewrite Nat.add_0_r in He.
    destruct (IH r (S n)) as [Hres Hdelays].
    + lia.
    + by replace (S n + k)%nat with (n + S k)%nat by lia.
    + intros j Hj. replace (S n + j)%nat with (n + S j)%nat by lia.
      apply Hbad. lia.
    + rewrite attemptsFrom_step, He, Hretry.
      rewrite bool_decide_eq_false_2 by lia.
      cbn [fst snd map seq app attempt_delay]. by rewrite Hres, Hdelays.
Qed.






End Recovery.
(** ** The handler of /api/transcribe-audio *)

Lemma includes_skip (l s p : jsstring) (c : Z) :
  Forall (fun a => a ≠ c) l ->
  includes (l ++ s) (c :: p) = includes s (c :: p).
Proof.
  induction 1 as [|a l Ha _ IH]; [done|].
  cbn [app includes strip_prefix].
  destruct (Z.eqb_spec c a) as [->|_]; [done|]. exact IH.
Qed.

Lemma includes_skip_one (a c : Z) (s p : jsstring) :
  a ≠ c -> includes (a :: s) (c :: p) = includes s (c :: p).
Proof.
  intros Ha. cbn [includes strip_prefix].
  by destruct (Z.eqb_spec c a) as [->|_].
Qed.

Lemma includes_skip_pair (a b c d : Z) (s p : jsstring) :
  b ≠ d ->
  includes (a :: b :: s) (c :: d :: p) = includes (b :: s) (c :: d :: p).
Proof.
  intros Hb. cbn [includes strip_prefix].
  destruct (c =? a); [|done]. by destruct (Z.eqb_spec d b) as [->|_].
Qed.

Lemma string_of_uint_digits (u : Decimal.uint) :
  Forall (fun c => 48 ≤ c ≤ 57) (str (NilEmpty.string_of_uint u)).
Proof.
  induction u; cbn [NilEmpty.string_of_uint str]; [constructor|..];
    (apply Forall_cons_2; [by vm_compute|done]).
Qed.

Lemma decimal_digits (n : Z) :
  0 ≤ n -> Forall (fun c => 48 ≤ c ≤ 57) (decimal n).
Proof.
  destruct n as [|p|p]; [| |lia]; intros _.
  - repeat constructor; by vm_compute.
  - apply string_of_uint_digits.
Qed.

Lemma megabytesFixed2_chars (bytes : Z) :
  0 ≤ bytes ->
  Forall (fun c => c ≠ 102) (TranscribeRoute.megabytesFixed2 bytes).
Proof.
  intros Hb. unfold TranscribeRoute.megabytesFixed2.
  set (h := (bytes * 200 + 1048576) / 2097152).
  assert (0 ≤ h) by (apply Z.div_pos; lia).
  apply Forall_app_2.
  - eapply Forall_impl; [apply decimal_digits; by apply Z.div_pos|].
    cbn. lia.
  - apply Forall_app_2; [repeat constructor; by vm_compute|].
    pose proof (Z.mod_pos_bound h 100 ltac:(lia)) as Hm.
    unfold TranscribeRoute.two_digits.
    assert (0 ≤ h mod 100 / 10 < 10)
      by (split; [apply Z.div_pos; lia|apply Z.div_lt_upper_bound; lia]).
    pose proof (Z.mod_pos_bound (h mod 100) 10 ltac:(lia)).
    repeat constructor; lia.
Qed.

(** The text of the size error does not mention "format". *)
Lemma size_error_has_no_format (bytes : Z) :
  0 ≤ bytes ->
  includes
    (str "File size exceeds maximum of "
     ++ decimal (TranscribeRoute.MAX_FILE_SIZE / 1024 / 1024)
     ++ str "MB. Your file: " ++ TranscribeRoute.megabytesFixed2 bytes
     ++ str "MB")
    (str "format")
  = false.
Proof.
  intros Hb.
  change (decimal (TranscribeRoute.MAX_FILE_SIZE / 1024 / 1024))
    with (str "25").
  norm_str. cbn [app].
  repeat first
    [ rewrite includes_skip_one by done
    | rewrite includes_skip_pair by done ].
  rewrite includes_skip by by apply megabytesFixed2_chars.
  reflexivity.
Qed.

Lemma endsWith_iff (s suffix : jsstring) :
  TranscribeRoute.endsWith s suffix = true ↔ ∃ stem, s = stem ++ suffix.
Proof.
  unfold TranscribeRoute.endsWith. split.
  - destruct (strip_prefix (rev suffix) (rev s)) as [r|] eqn:Hr; [|done].
    intros _. apply strip_prefix_Some in Hr. exists (rev r).
    by rewrite <- (rev_involutive s), Hr, rev_app_distr, rev_involutive.
  - intros [stem ->]. by rewrite rev_app_distr, strip_prefix_app.
Qed.

Lemma hasValidExtension_iff (filename : jsstring) :
  existsb (fun ext => TranscribeRoute.endsWith filename ext)
    TranscribeRoute.SUPPORTED_EXTENSIONS = true
  ↔ ∃ ext stem, ext ∈ TranscribeRoute.SUPPORTED_EXTENSIONS
                ∧ filename = stem ++ ext.
Proof.
  rewrite existsb_exists. split.
  - intros (ext & Hin & He). apply endsWith_iff in He as [stem ->].
    exists ext, stem. by rewrite list_elem_of_In.
  - intros (ext & stem & Hin & ->). exists ext.
    split; [by rewrite <- list_elem_of_In|]. apply endsWith_iff. by eexists.
Qed.

Lemma listIncludes_iff (l : list jsstring) (x : jsstring) :
  TranscribeRoute.listIncludes l x = true ↔ x ∈ l.
Proof.
  unfold TranscribeRoute.listIncludes. rewrite existsb_exists. split.
  - intros (y & Hin & He). apply bool_decide_eq_true_1 in He as ->.
    by rewrite list_elem_of_In.
  - intros Hin. exists x. split; [by rewrite <- list_elem_of_In|].
    by apply bool_decide_eq_true_2.
Qed.

(** X22.  [validateAudioFile] accepts a file exactly when its name, put in
    lower case, ends with one of the five supported extensions, its size is
    at most 25 MB, and the MIME type, when one is given and is not empty, is
    one of the five supported types.  The extension is looked at first and
    the size second: a file with a wrong extension is refused for its
    format whatever its size. *)
Theorem validateAudioFile_accepts_exactly (file : TranscribeRoute.File)
    (mimeType : option jsstring) :
  (TranscribeRoute.validateAudioFile file mimeType = TranscribeRoute.Valid
   ↔ (∃ ext stem,
        ext ∈ TranscribeRoute.SUPPORTED_EXTENSIONS
        ∧ TranscribeRoute.toLowerCase (TranscribeRoute.name file)
          = stem ++ ext)
     ∧ TranscribeRoute.size file ≤ 25 * 1024 * 1024
     ∧ (∀ m, mimeType = Some m -> m ≠ [] ->
             m ∈ TranscribeRoute.SUPPORTED_FORMATS))
  ∧ ((¬ ∃ ext stem,
          ext ∈ TranscribeRoute.SUPPORTED_EXTENSIONS
          ∧ TranscribeRoute.toLowerCase (TranscribeRoute.name file)
            = stem ++ ext) ->
     TranscribeRoute.validateAudioFile file mimeType
     = TranscribeRoute.Invalid
         (str "Unsupported audio format. Supported formats: .mp3, .mp4, .wav, .webm, .m4a")).
Proof.
  unfold TranscribeRoute.validateAudioFile.
  pose proof (hasValidExtension_iff
                (TranscribeRoute.toLowerCase (TranscribeRoute.name file)))
    as Hext.
  destruct (existsb _ TranscribeRoute.SUPPORTED_EXTENSIONS); cbn [negb].
  - assert (Hyes : ∃ ext stem,
               ext ∈ TranscribeRoute.SUPPORTED_EXTENSIONS
               ∧ TranscribeRoute.toLowerCase (TranscribeRoute.name file)
                 = stem ++ ext) by by apply Hext.
    split; [|by intros []].
    change TranscribeRoute.MAX_FILE_SIZE with (25 * 1024 * 1024).
    destruct (Z.ltb_spec (25 * 1024 * 1024) (TranscribeRoute.size file)).
    + split; [done|]. intros (_ & ? & _). lia.
    + destruct mimeType as [[|c t]|].
      * split; [|done]. intros _. split_and!; try done. by intros m [= <-].
      * pose proof (listIncludes_iff TranscribeRoute.SUPPORTED_FORMATS
                      (c :: t)) as Hin.
        destruct (TranscribeRoute.listIncludes _ _); cbn [negb].
        -- split; [|done]. intros _. split_and!; try done.
           intros m [= <-] _. by apply Hin.
        -- split; [done|]. intros (_ & _ & Hm).
           assert (false = true); [|done]. apply Hin. by apply Hm.
      * split; [|done]. intros _. by split_and!.
  - assert (Hno : ¬ ∃ ext stem,
               ext ∈ TranscribeRoute.SUPPORTED_EXTENSIONS
               ∧ TranscribeRoute.toLowerCase (TranscribeRoute.name file)
                 = stem ++ ext).
    { intros H. by apply Hext in H. }
    split; [|by intros _; vm_compute].
    split; [done|]. by intros (H & _).
Qed.
(** X23.  A bad upload is refused at once.  When the uploaded file fails
    the validation the handler answers 400 without building the client and
    without calling the service, whatever the environment: with code
    UNSUPPORTED_FORMAT when the name has none of the supported extensions,
    and with code FILE_TOO_LARGE when the extension is supported and the
    file has more than 25 MB (the handler tells the two apart by looking
    for "format" in the error text, and the size text never holds it).
    The error text is that of the validation. *)
Theorem transcribe_audio_refuses_a_bad_upload_at_once
    (env : TranscribeRoute.Env) (request : TranscribeRoute.Request)
    (file : TranscribeRoute.File) :
  TranscribeRoute.formData request
  = Returned (Some (TranscribeRoute.EntryFile file)) ->
  TranscribeRoute.validateAudioFile file None ≠ TranscribeRoute.Valid ->
  ∃ message c,
    TranscribeRoute.POST env request
    = (TranscribeRoute.errorResponse message c 400, [])
    ∧ TranscribeRoute.validateAudioFile file None
      = TranscribeRoute.Invalid message
    ∧ ((¬ ∃ ext stem,
            ext ∈ TranscribeRoute.SUPPORTED_EXTENSIONS
            ∧ TranscribeRoute.toLowerCase (TranscribeRoute.name file)
              = stem ++ ext) ->
       c = GroqClient.UNSUPPORTED_FORMAT)
    ∧ ((∃ ext stem,
           ext ∈ TranscribeRoute.SUPPORTED_EXTENSIONS
           ∧ TranscribeRoute.toLowerCase (TranscribeRoute.name file)
             = stem ++ ext) ->
       c = GroqClient.FILE_TOO_LARGE
       ∧ 25 * 1024 * 1024 < TranscribeRoute.size file).
Proof.
  intros Hform Hbad. unfold TranscribeRoute.POST. rewrite Hform.
  revert Hbad. unfold TranscribeRoute.validateAudioFile.
  pose proof (hasValidExtension_iff
                (TranscribeRoute.toLowerCase (TranscribeRoute.name file)))
    as Hext.
  destruct (existsb _ TranscribeRoute.SUPPORTED_EXTENSIONS); cbn [negb].
  - change TranscribeRoute.MAX_FILE_SIZE with (25 * 1024 * 1024).
    destruct (Z.ltb_spec (25 * 1024 * 1024) (TranscribeRoute.size file));
      [|done].
    intros _.
    change (25 * 1024 * 1024) with TranscribeRoute.MAX_FILE_SIZE at 1 2.
    rewrite size_error_has_no_format by lia.
    eexists; eexists. split; [reflexivity|]. split; [reflexivity|].
    split; [|done]. intros Hno. destruct Hno. by apply Hext.
  - intros _. eexists; eexists. split; [by vm_compute|].
    split; [reflexivity|]. split; [done|].
    intros Hyes. by apply Hext in Hyes.
Qed.

Lemma transcribe_audio_refuses_a_bad_upload_at_once_witness :
  ∃ message,
    TranscribeRoute.POST route_env (upload_request oversize_upload)
    = (TranscribeRoute.errorResponse message GroqClient.FILE_TOO_LARGE 400, [])
    ∧ TranscribeRoute.validateAudioFile oversize_upload None
      = TranscribeRoute.Invalid message
    ∧ message
      = str "File size exceeds maximum of 25MB. Your file: 25.75MB".
Proof.
  assert (Hbad : TranscribeRoute.validateAudioFile oversize_upload None
                 ≠ TranscribeRoute.Valid) by (by vm_compute).
  destruct (transcribe_audio_refuses_a_bad_upload_at_once route_env
              (upload_request oversize_upload) oversize_upload eq_refl Hbad)
    as (message & c & Hrun & Hval & _ & Hlarge).
  destruct Hlarge as [-> _].
  { exists (str ".wav"), (str "decima"). split; [|reflexivity].
    do 2 apply list_elem_of_further. apply list_elem_of_here. }
  exists message. split; [exact Hrun|]. split; [exact Hval|].
  assert (Hm : TranscribeRoute.validateAudioFile oversize_upload None
               = TranscribeRoute.Invalid
                   (str "File size exceeds maximum of 25MB. Your file: 25.75MB"))
    by (vm_compute; reflexivity).
  rewrite Hval in Hm. by injection Hm.
Defined.

(** X24.  In every response of the handler the status follows the code.  A
    success has status 200, a text taken from the client's result, no
    error and no code.  A failure has an error text that is never empty, a
    code, and the status that goes with the code: 400 for FILE_TOO_LARGE
    and UNSUPPORTED_FORMAT, 401 for GROQ_AUTH_ERROR, 429 for RATE_LIMIT and
    500 for every other code; it is never 200.  The handler itself never
    throws. *)
Theorem transcribe_audio_status_follows_the_code
    (env : TranscribeRoute.Env) (request : TranscribeRoute.Request) :
  (TranscribeRoute.success (fst (TranscribeRoute.POST env request)) = true ->
   TranscribeRoute.status (fst (TranscribeRoute.POST env request)) = 200
   ∧ TranscribeRoute.error (fst (TranscribeRoute.POST env request)) = None
   ∧ TranscribeRoute.code (fst (TranscribeRoute.POST env request)) = None)
  ∧ (TranscribeRoute.success (fst (TranscribeRoute.POST env request)) = false ->
     ∃ c message,
       TranscribeRoute.code (fst (TranscribeRoute.POST env request)) = Some c
       ∧ TranscribeRoute.error (fst (TranscribeRoute.POST env request))
         = Some message
       ∧ message ≠ []
       ∧ TranscribeRoute.text (fst (TranscribeRoute.POST env request)) = None
       ∧ TranscribeRoute.status (fst (TranscribeRoute.POST env request))
         = match c with
           | GroqClient.FILE_TOO_LARGE | GroqClient.UNSUPPORTED_FORMAT => 400
           | GroqClient.GROQ_AUTH_ERROR => 401
           | GroqClient.RATE_LIMIT => 429
           | _ => 500
           end).
Proof.
  assert (Hfail : ∀ message c (attempts : list GroqClient.Attempt),
    message ≠ [] ->
    (TranscribeRoute.success
       (fst (TranscribeRoute.errorResponse message c
               (TranscribeRoute.statusFor (Some c)), attempts)) = true ->
     TranscribeRoute.status
       (fst (TranscribeRoute.errorResponse message c
               (TranscribeRoute.statusFor (Some c)), attempts)) = 200
     ∧ TranscribeRoute.error
         (fst (TranscribeRoute.errorResponse message c
                 (TranscribeRoute.statusFor (Some c)), attempts)) = None
     ∧ TranscribeRoute.code
         (fst (TranscribeRoute.errorResponse message c
                 (TranscribeRoute.statusFor (Some c)), attempts)) = None)
    ∧ (TranscribeRoute.success
         (fst (TranscribeRoute.errorResponse message c
                 (TranscribeRoute.statusFor (Some c)), attempts)) = false ->
       ∃ c0 message0,
         TranscribeRoute.code
           (fst (TranscribeRoute.errorResponse message c
                   (TranscribeRoute.statusFor (Some c)), attempts)) = Some c0
         ∧ TranscribeRoute.error
             (fst (TranscribeRoute.errorResponse message c
                     (TranscribeRoute.statusFor (Some c)), attempts))
           = Some message0
         ∧ message0 ≠ []
         ∧ TranscribeRoute.text
             (fst (TranscribeRoute.errorResponse message c
                     (TranscribeRoute.statusFor (Some c)), attempts)) = None
         ∧ TranscribeRoute.status
             (fst (TranscribeRoute.errorResponse message c
                     (TranscribeRoute.statusFor (Some c)), attempts))
           = match c0 with
             | GroqClient.FILE_TOO_LARGE | GroqClient.UNSUPPORTED_FORMAT => 400
             | GroqClient.GROQ_AUTH_ERROR => 401
             | GroqClient.RATE_LIMIT => 429
             | _ => 500
             end)).
  { intros message c attempts Hne. cbn [fst]. split; [done|]. intros _.
    exists c, message. by split_and!. }
  assert (Hne : ∀ x d, d ≠ [] -> or_default x d ≠ [])
    by apply or_default_nonempty.
  unfold TranscribeRoute.POST, TranscribeRoute.unexpected.
  destruct (TranscribeRoute.formData request) as [[[file|s]|]|message];
    try (apply (Hfail _ GroqClient.UNSUPPORTED_FORMAT); done);
    try (apply (Hfail _ GroqClient.UNKNOWN_ERROR); by apply Hne).
  destruct (TranscribeRoute.validateAudioFile file None) as [|message].
  - destruct (TranscribeRoute.arrayBuffer request) as [[]|message];
      [|apply (Hfail _ GroqClient.UNKNOWN_ERROR); by apply Hne].
    destruct (TranscribeRoute.getGroqClient env) as [[]|message];
      [|apply (Hfail _ GroqClient.UNKNOWN_ERROR); by apply Hne].
    destruct (GroqClient.transcribe _ _ _) as [result attempts].
    destruct (GroqClient.success result); cbn [negb]; [done|].
    destruct (GroqClient.code result) as [c|]; cbn [default].
    + apply Hfail. by apply Hne.
    + apply (Hfail _ GroqClient.UNKNOWN_ERROR). by apply Hne.
  - destruct (includes message (str "format")).
    + apply (Hfail _ GroqClient.UNSUPPORTED_FORMAT). by apply Hne.
    + apply (Hfail _ GroqClient.FILE_TOO_LARGE). by apply Hne.
Qed.

Lemma transcribe_audio_valid_upload (env : TranscribeRoute.Env)
    (request : TranscribeRoute.Request) (file : TranscribeRoute.File) :
  TranscribeRoute.formData request
  = Returned (Some (TranscribeRoute.EntryFile file)) ->
  TranscribeRoute.validateAudioFile file None = TranscribeRoute.Valid ->
  TranscribeRoute.arrayBuffer request = Returned tt ->
  TranscribeRoute.getGroqClient env = Returned tt ->
  TranscribeRoute.POST env request
  = (if negb (GroqClient.success
                (fst (GroqClient.transcribe GroqClient.retryConfig
                        (TranscribeRoute.service env
                           (TranscribeRoute.name file)
                           (or_default (TranscribeRoute.type file)
                              (str "audio/mpeg")))
                        (TranscribeRoute.random env))))
     then
       TranscribeRoute.errorResponse
         (or_default
            (default []
               (GroqClient.error
                  (fst (GroqClient.transcribe GroqClient.retryConfig
                          (TranscribeRoute.service env
                             (TranscribeRoute.name file)
                             (or_default (TranscribeRoute.type file)
                                (str "audio/mpeg")))
                          (TranscribeRoute.random env)))))
            (str "Transcription failed"))
         (default GroqClient.UNKNOWN_ERROR
            (GroqClient.code
               (fst (GroqClient.transcribe GroqClient.retryConfig
                       (TranscribeRoute.service env
                          (TranscribeRoute.name file)
                          (or_default (TranscribeRoute.type file)
                             (str "audio/mpeg")))
                       (TranscribeRoute.random env)))))
         (TranscribeRoute.statusFor
            (GroqClient.code
               (fst (GroqClient.transcribe GroqClient.retryConfig
                       (TranscribeRoute.service env
                          (TranscribeRoute.name file)
                          (or_default (TranscribeRoute.type file)
                             (str "audio/mpeg")))
                       (TranscribeRoute.random env)))))
     else
       {| TranscribeRoute.status := 200; TranscribeRoute.success := true;
          TranscribeRoute.text :=
            GroqClient.text
              (fst (GroqClient.transcribe GroqClient.retryConfig
                      (TranscribeRoute.service env
                         (TranscribeRoute.name file)
                         (or_default (TranscribeRoute.type file)
                            (str "audio/mpeg")))
                      (TranscribeRoute.random env)));
          TranscribeRoute.error := None; TranscribeRoute.code := None |},
     snd (GroqClient.transcribe GroqClient.retryConfig
            (TranscribeRoute.service env (TranscribeRoute.name file)
               (or_default (TranscribeRoute.type file) (str "audio/mpeg")))
            (TranscribeRoute.random env))).
Proof.
  intros Hform Hvalid Hbuf Hclient. unfold TranscribeRoute.POST.
  rewrite Hform, Hvalid, Hbuf, Hclient.
  destruct (GroqClient.transcribe _ _ _) as [result attempts]. cbn [fst snd].
  by destruct (GroqClient.success result).
Qed.

(** X25.  The handler and the client together, for an upload that passes
    the validation once the client could be built.  If the service answers
    at attempt k (k < 3) after failures of a retried kind, the response is
    a 200 with the text of that answer, after k + 1 calls of the service.
    If the first call fails with an error that is not retried, the
    response carries the code of that error with status 401 (for
    GROQ_AUTH_ERROR) or 400, after that one call.  If all three calls fail
    with errors of a retried kind, the response carries the code of the
    third error with status 429 (for RATE_LIMIT) or 500, after three
    calls. *)
Theorem transcribe_audio_outcomes_of_a_valid_upload
    (env : TranscribeRoute.Env) (request : TranscribeRoute.Request)
    (file : TranscribeRoute.File) :
  TranscribeRoute.formData request
  = Returned (Some (TranscribeRoute.EntryFile file)) ->
  TranscribeRoute.validateAudioFile file None = TranscribeRoute.Valid ->
  TranscribeRoute.arrayBuffer request = Returned tt ->
  TranscribeRoute.getGroqClient env = Returned tt ->
  (∀ k transcription,
     (k < 3)%nat ->
     TranscribeRoute.service env (TranscribeRoute.name file)
       (or_default (TranscribeRoute.type file) (str "audio/mpeg")) k
     = GroqClient.Created transcription ->
     (∀ j, (j < k)%nat ->
           ∃ e, TranscribeRoute.service env (TranscribeRoute.name file)
                  (or_default (TranscribeRoute.type file) (str "audio/mpeg")) j
                = GroqClient.Threw e
                ∧ GroqClient.notRetried (GroqClient.classifyError e) = false) ->
     fst (TranscribeRoute.POST env request)
     = {| TranscribeRoute.status := 200; TranscribeRoute.success := true;
          TranscribeRoute.text := Some transcription;
          TranscribeRoute.error := None; TranscribeRoute.code := None |}
     ∧ length (snd (TranscribeRoute.POST env request)) = S k)
  ∧ (∀ e,
       TranscribeRoute.service env (TranscribeRoute.name file)
         (or_default (TranscribeRoute.type file) (str "audio/mpeg")) 0%nat
       = GroqClient.Threw e ->
       GroqClient.notRetried (GroqClient.classifyError e) = true ->
       TranscribeRoute.code (fst (TranscribeRoute.POST env request))
       = Some (GroqClient.classifyError e)
       ∧ TranscribeRoute.status (fst (TranscribeRoute.POST env request))
         = match GroqClient.classifyError e with
           | GroqClient.GROQ_AUTH_ERROR => 401
           | _ => 400
           end
       ∧ length (snd (TranscribeRoute.POST env request)) = 1%nat)
  ∧ ((∀ j, (j < 3)%nat ->
           ∃ e, TranscribeRoute.service env (TranscribeRoute.name file)
                  (or_default (TranscribeRoute.type file) (str "audio/mpeg")) j
                = GroqClient.Threw e
                ∧ GroqClient.notRetried (GroqClient.classifyError e) = false) ->
     ∃ e,
       TranscribeRoute.service env (TranscribeRoute.name file)
         (or_default (TranscribeRoute.type file) (str "audio/mpeg")) 2%nat
       = GroqClient.Threw e
       ∧ TranscribeRoute.code (fst (TranscribeRoute.POST env request))
         = Some (GroqClient.classifyError e)
       ∧ TranscribeRoute.status (fst (TranscribeRoute.POST env request))
         = match GroqClient.classifyError e with
           | GroqClient.RATE_LIMIT => 429
           | _ => 500
           end
       ∧ length (snd (TranscribeRoute.POST env request)) = 3%nat).
Proof.
  intros Hform Hvalid Hbuf Hclient.
  rewrite (transcribe_audio_valid_upload env request file) by done.
  cbn [fst snd]. unfold GroqClient.transcribe.
  set (svc := TranscribeRoute.service env (TranscribeRoute.name file)
                (or_default (TranscribeRoute.type file) (str "audio/mpeg"))).
  set (rnd := TranscribeRoute.random env).
  change (GroqClient.maxAttempts GroqClient.retryConfig) with 3%nat.
  split_and!.
  - intros k transcription Hk Hok Hbad.
    destruct (attemptsFrom_recovers GroqClient.retryConfig svc rnd
                transcription k 3 0 Hk Hok Hbad) as [Hres Hdelays].
    rewrite Hres. cbn [GroqClient.success negb GroqClient.text].
    split; [done|].
    apply (f_equal (@length _)) in Hdelays.
    rewrite length_map, length_app, length_map, length_seq in Hdelays.
    cbn [length] in Hdelays. lia.
  - intros e He Hstop.
    destruct (attemptsFrom_not_retried GroqClient.retryConfig svc rnd 2 0 e
                He Hstop) as (Hcode & Hfail & Hlen).
    rewrite Hfail, Hcode, Hlen. cbn [negb default]. split; [done|].
    split; [|done]. cbn. by destruct (GroqClient.classifyError e).
  - intros Hbad.
    destruct (attemptsFrom_all_retried GroqClient.retryConfig svc rnd 2 0)
      as (e & He & Hcode & Hfail & Hlen); [exact Hbad|].
    exists e. rewrite Hfail, Hcode, Hlen. cbn [negb default].
    split; [done|]. split; [done|]. split; [|done].
    destruct (Hbad 2%nat ltac:(lia)) as (e' & He' & Hretry).
    cbn [Nat.add] in He. rewrite He in He'. injection He' as <-.
    cbn. by destruct (GroqClient.classifyError e).
Qed.

Lemma transcribe_audio_outcomes_of_a_valid_upload_witness :
  fst (TranscribeRoute.POST route_env (upload_request sample_upload))
  = {| TranscribeRoute.status := 200; TranscribeRoute.success := true;
       TranscribeRoute.text := Some (str "Yo soy la viajera");
       TranscribeRoute.error := None; TranscribeRoute.code := None |}
  ∧ length (snd (TranscribeRoute.POST route_env (upload_request sample_upload)))
    = 2%nat.
Proof.
  assert (Hvalid : TranscribeRoute.validateAudioFile sample_upload None
                   = TranscribeRoute.Valid) by (vm_compute; reflexivity).
  refine (proj1 (transcribe_audio_outcomes_of_a_valid_upload route_env
                   (upload_request sample_upload) sample_upload
                   eq_refl Hvalid eq_refl eq_refl)
            1%nat (str "Yo soy la viajera") _ eq_refl _).
  - lia.
  - intros j Hj. assert (j = 0%nat) as -> by lia.
    exists server_down. split; reflexivity.
Defined.
(** ** Errors before the URL is known *)

(** X26.  The handler fails closed.  When the rate limiter itself throws,
    or when an admitted request has a body that cannot be parsed, the
    handler answers 500 with the message of the error (or a default text
    when the message is empty) and does nothing else: no cache lookup, no
    extraction, the state untouched. *)
Theorem POST_fails_closed (env : Env) (this : Receiver) (request : Request)
    (st : State) (message : jsstring) :
  env_ratelimit env (getClientIp request) = Thrown message
  ∨ (∃ limit, env_ratelimit env (getClientIp request) = Returned limit
              ∧ rl_success limit = true
              ∧ json_url request = Thrown message) ->
  POST env this request st
  = (Returned
       (json (BodyError
                (or_default message (str "An unexpected error occurred"))
                None) 500),
     st,
     [ EvRateLimit (getClientIp request);
       EvConsole ErrorLevel (str "[Process YouTube] Unexpected error:") ]).
Proof.
  rewrite POST_eval. intros [->|(limit & -> & -> & ->)]; reflexivity.
Qed.

Lemma POST_fails_closed_witness :
  POST sample_env ThisUndefined
    {| x_forwarded_for := None; x_real_ip := Some (str "198.51.100.4");
       json_url := Thrown (str "Unexpected end of JSON input") |}
    empty_state
  = (Returned
       (json (BodyError (str "Unexpected end of JSON input") None) 500),
     empty_state,
     [ EvRateLimit (str "198.51.100.4");
       EvConsole ErrorLevel (str "[Process YouTube] Unexpected error:") ]).
Proof.
  apply (POST_fails_closed sample_env ThisUndefined
           {| x_forwarded_for := None; x_real_ip := Some (str "198.51.100.4");
              json_url := Thrown (str "Unexpected end of JSON input") |}
           empty_state (str "Unexpected end of JSON input")).
  right. eexists. split; [reflexivity|]. by split.
Defined.

(** ** The command an extraction runs *)




(** ** When the transcription service is called *)

(** X28.  The handler of /api/transcribe-audio calls the service only for
    an uploaded file that passed the validation, after its bytes were read
    and with a client in hand (one built earlier, or a GROQ_API_KEY that is
    set and not empty); and then at most three times. *)
Theorem transcribe_audio_calls_the_service_only_for_a_valid_upload
    (env : TranscribeRoute.Env) (request : TranscribeRoute.Request) :
  (length (snd (TranscribeRoute.POST env request)) ≤ 3)%nat
  ∧ (snd (TranscribeRoute.POST env request) ≠ [] ->
     ∃ file,
       TranscribeRoute.formData request
       = Returned (Some (TranscribeRoute.EntryFile file))
       ∧ TranscribeRoute.validateAudioFile file None = TranscribeRoute.Valid
       ∧ TranscribeRoute.arrayBuffer request = Returned tt
       ∧ (TranscribeRoute.clientBuilt env = true
          ∨ ∃ c key, TranscribeRoute.GROQ_API_KEY env = Some (c :: key))).
Proof.
  unfold TranscribeRoute.POST.
  destruct (TranscribeRoute.formData request) as [[[file|s]|]|message];
    try (split; [cbn; lia|done]).
  destruct (TranscribeRoute.validateAudioFile file None) as [|message]
    eqn:Hvalid; [|split; [cbn; lia|done]].
  destruct (TranscribeRoute.arrayBuffer request) as [[]|message];
    [|split; [cbn; lia|done]].
  assert (Hclient : TranscribeRoute.getGroqClient env = Returned tt ->
            TranscribeRoute.clientBuilt env = true
            ∨ ∃ c key, TranscribeRoute.GROQ_API_KEY env = Some (c :: key)).
  { unfold TranscribeRoute.getGroqClient.
    destruct (TranscribeRoute.clientBuilt env); [by left|].
    destruct (TranscribeRoute.GROQ_API_KEY env) as [[|c key]|]; try done.
    intros _. right. by eexists; eexists. }
  destruct (TranscribeRoute.getGroqClient env) as [[]|message];
    [|split; [cbn; lia|done]].
  pose proof (attemptsFrom_length GroqClient.retryConfig
                (TranscribeRoute.service env (TranscribeRoute.name file)
                   (or_default (TranscribeRoute.type file) (str "audio/mpeg")))
                (TranscribeRoute.random env) 3 0) as Hlen.
  unfold GroqClient.transcribe.
  change (GroqClient.maxAttempts GroqClient.retryConfig) with 3%nat.
  destruct (GroqClient.attemptsFrom _ _ _ _ _) as [result attempts].
  cbn [snd] in Hlen.
  destruct (negb (GroqClient.success result)); cbn [snd];
    (split; [done|]); intros _; exists file; split_and!; try done;
    by apply Hclient.
Qed.
